(** * FractalAnalogMultiplier: the Euclidean tracer, the Fibonacci multiplier
      and the analog simulator of [fractal_multiplier.py]

    A shallow embedding of the three classes of the source file and the
    properties of them that the specification states.

    Python integers are [Z]: [//] and [%] are [Z.div] and [Z.modulo] (both
    floor, the remainder has the divisor's sign).  Python floats are the
    binary64 numbers of [PrimFloat].  A raised exception is the [Raise]
    branch of [result]; objects are records, and a method that mutates
    [self] returns the new record next to its value. *)

From Stdlib Require Import ZArith Znumtheory Lia String Floats Sorted.
From Equations Require Import Equations.
From stdpp Require Import base option list gmap sets.

Set Warnings "-inexact-float".
#[local] Open Scope Z_scope.

(** ** Python runtime *)

Module Py.

Inductive exn : Type :=
| ValueError (msg : string)
| KeyError
| IndexError
| OverflowError.

Inductive result (A : Type) : Type :=
| Ok (a : A)
| Raise (e : exn).
#[global] Arguments Ok {A} a.
#[global] Arguments Raise {A} e.

#[global] Instance result_ret : MRet result := fun A a => Ok a.
#[global] Instance result_bind : MBind result := fun A B k m =>
  match m with
  | Ok a => k a
  | Raise e => Raise e
  end.

Definition raises {A} (m : result A) : Prop := exists e, m = Raise e.

(** [for x in l: s = body x s] *)
Fixpoint for_in {A S : Type} (body : A -> S -> result S) (l : list A) (s : S)
  : result S :=
  match l with
  | [] => Ok s
  | x :: l' => s' ← body x s; for_in body l' s'
  end.

(** [range(lo, hi)] *)
Definition range (lo hi : Z) : list Z :=
  (fun k : nat => lo + Z.of_nat k) <$> seq 0 (Z.to_nat (hi - lo)).

(** [l[i]] for [0 <= i]; [IndexError] past the end. *)
Definition getitem {A} (l : list A) (i : Z) : result A :=
  if decide (0 <= i) then
    match l !! Z.to_nat i with
    | Some x => Ok x
    | None => Raise IndexError
    end
  else
    match l !! Z.to_nat (Z.of_nat (length l) + i) with
    | Some x => if decide (0 <= Z.of_nat (length l) + i) then Ok x
                else Raise IndexError
    | None => Raise IndexError
    end.

(** [d[k]] on a dict *)
Definition dict_get `{Countable K} {V} (d : gmap K V) (k : K) : result V :=
  match d !! k with
  | Some v => Ok v
  | None => Raise KeyError
  end.

(** [l.index(x)]: the first position holding [x]. *)
Fixpoint index (x : Z) (l : list Z) : result Z :=
  match l with
  | [] => Raise (ValueError "x is not in list")
  | y :: l' => if decide (y = x) then Ok 0
               else i ← index x l'; Ok (i + 1)
  end.

(** [l[:n]] for [0 <= n] *)
Definition slice_to {A} (l : list A) (n : Z) : list A := take (Z.to_nat n) l.

(** [l[:-1]] *)
Definition all_but_last {A} (l : list A) : list A := take (length l - 1)%nat l.

(** [sum(l)] on integers *)
Definition sum (l : list Z) : Z := fold_left Z.add l 0.

End Py.
Import Py.

(** ** class EuclideanGCD *)

Record EuclideanGCD : Type := mkEuclideanGCD {
  path : list (Z * Z);
  operations : list (Z * Z * Z)
}.

(** [__init__] *)
Definition EuclideanGCD_init : EuclideanGCD :=
  {| path := []; operations := [] |}.

(** The [while b != 0] loop of [compute_gcd]; it returns the final [a] and
    the object with both lists extended.  The divisor's absolute value
    decreases at every turn, so the loop is total on all of [Z]. *)
Equations? gcd_loop (self : EuclideanGCD) (a b : Z) : Z * EuclideanGCD
  by wf (Z.abs_nat b) lt :=
  gcd_loop self a b with decide (b = 0) := {
    | left _ => (a, self)
    | right _ =>
        let quotient := a / b in
        let remainder := a mod b in
        gcd_loop {| operations := operations self ++ [(quotient, remainder, 1)];
                    path := path self ++ [(a, b)] |}
                 b remainder }.
Proof.
  pose proof (Z.mod_bound_or a b ltac:(assumption)). lia.
Qed.

Definition compute_gcd (self : EuclideanGCD) (a b : Z)
  : (Z * list (Z * Z * Z)) * EuclideanGCD :=
  let self := {| path := []; operations := [] |} in
  let '(a, self) := gcd_loop self a b in
  let self := {| path := path self ++ [(a, 0)];
                 operations := operations self |} in
  ((a, operations self), self).

(** [get_subtraction_sequence]: the body of the outer loop, then the method. *)
Definition subtraction_step (self : EuclideanGCD) (i : Z) (sequence : list Z)
  : result (list Z) :=
  '(quotient, _, _) ← getitem (operations self) i;
  '(_, divisor) ← getitem (path self) i;
  Ok (sequence ++ replicate (Z.to_nat quotient) divisor).

Definition get_subtraction_sequence (self : EuclideanGCD) : result (list Z) :=
  for_in (subtraction_step self)
         (range 0 (Z.of_nat (length (operations self)))) [].

(** ** class FractalMultiplier *)

Record FractalMultiplier : Type := mkFractalMultiplier {
  fib : list Z;
  fib_set : gset Z;
  squares : gmap Z Z
}.

(** [fib.append(fib[-1] + fib[-2])], once per element of [range(2, n)]. *)
Definition fibonacci_step (i : Z) (fib : list Z) : result (list Z) :=
  x ← getitem fib (-1);
  y ← getitem fib (-2);
  Ok (fib ++ [x + y]).

Definition _generate_fibonacci (n : Z) : result (list Z) :=
  for_in fibonacci_step (range 2 n) [1; 1].

(** [{f: f*f for f in fib}]: a later entry overwrites an earlier one. *)
Definition squares_of (fib : list Z) : gmap Z Z :=
  fold_left (fun d f => <[f := f * f]> d) fib ∅.

(** [__init__(max_n)]; the default is [max_n = 100]. *)
Definition FractalMultiplier_init (max_n : Z) : result FractalMultiplier :=
  fib ← _generate_fibonacci max_n;
  Ok {| fib := fib; fib_set := list_to_set fib; squares := squares_of fib |}.

(** One turn of [sum(self.squares[self.fib[i]] for i in range(idx + 1))]. *)
Definition square_term (self : FractalMultiplier) (i : Z) (acc : Z) : result Z :=
  f ← getitem (fib self) i;
  sq ← dict_get (squares self) f;
  Ok (acc + sq).

(** [compute_product]; [lru_cache] only stores results of this function of
    an immutable table, so it is left out. *)
Definition compute_product (self : FractalMultiplier) (a b : Z) : result Z :=
  if decide (a ∉ fib_set self ∨ b ∉ fib_set self) then Ok (a * b)
  else
    let smaller := Z.min a b in
    idx ← index smaller (fib self);
    for_in (square_term self) (range 0 (idx + 1)) 0.

(** ** numpy and the random source *)

Module Np.

(** Converting an [int] operand of a float operation: rounded to the
    nearest binary64, ties to even; [OverflowError] from
    [2^1024 - 2^970] on, the first integer that rounds past the
    largest double. *)
Definition float_of_int (z : Z) : result float :=
  if decide (Z.abs z < 2 ^ 1024 - 2 ^ 970)
  then Ok (SF2Prim (binary_normalize prec emax z 0 false))
  else Raise OverflowError.

(** The 8-accumulator block of numpy's pairwise summation:
    [k] further groups of eight are added into [r] columnwise. *)
Fixpoint add_blocks (k : nat) (r a : list float) : list float * list float :=
  match k with
  | O => (r, a)
  | S k' => add_blocks k' (zip_with PrimFloat.add r (take 8 a)) (drop 8 a)
  end.

Definition sum_unrolled (a : list float) : float :=
  match add_blocks (length a / 8 - 1) (take 8 a) (drop 8 a) with
  | ([r0; r1; r2; r3; r4; r5; r6; r7], rest) =>
      fold_left PrimFloat.add rest
        (((r0 + r1) + (r2 + r3)) + ((r4 + r5) + (r6 + r7)))%float
  | _ => 0%float
  end.

(** [np.sum] of a one-dimensional float64 array: left to right below
    eight elements, eight accumulators up to 128 elements, and above
    that the two halves (the first a multiple of eight long) summed
    apart. *)
Equations? sum (a : list float) : float by wf (length a) lt :=
  sum a with le_lt_dec (length a) 128 := {
    | left _ =>
        if (length a <? 8)%nat then fold_left PrimFloat.add a 0%float
        else sum_unrolled a
    | right _ =>
        let n2 := (length a / 2)%nat in
        let n2 := (n2 - n2 mod 8)%nat in
        (sum (take n2 a) + sum (drop n2 a))%float }.
Proof.
  all: subst n2 n3.
  - rewrite length_take.
    pose proof (Nat.div_lt (length a) 2 ltac:(lia) ltac:(lia)). lia.
  - rewrite length_drop.
    pose proof (Nat.mod_upper_bound (length a / 2) 8 ltac:(lia)).
    assert (64 <= length a / 2)%nat
      by (apply (Nat.div_le_lower_bound (length a) 2 64); lia).
    lia.
Qed.

(** What the model takes from numpy as given: [np.log10] and [np.std]. *)
Record lib : Type := mkLib {
  log10 : float -> float;
  std : list float -> float
}.

(** The random source is the stream of its standard normal draws.
    [np.random.normal(loc, scale)] refuses a scale whose sign bit is set
    with a [ValueError], before it draws; otherwise it takes the next
    draw [z] and returns [loc + scale * z]. *)
Definition RandomState : Type := nat -> float.

Definition random_normal (loc scale : float) (rs : RandomState)
  : result (float * RandomState) :=
  if get_sign scale then Raise (ValueError "scale < 0")
  else Ok ((loc + scale * rs O)%float, fun i => rs (S i)).

End Np.

(** [max(x, y)] on floats: [y] when it is greater, else [x]. *)
Definition float_max (x y : float) : float :=
  if (x <? y)%float then y else x.

(** ** class AnalogComputingSimulator *)

Record AnalogComputingSimulator : Type := mkSimulator {
  fm : FractalMultiplier;
  gcd : EuclideanGCD;
  base_conductance : float;
  cells : gmap Z float;
  noise_std : float
}.

(** One entry of [{size: base_conductance * size**2 for size in fm.fib}]. *)
Definition cell_entry (base_conductance : float) (size : Z)
    (d : gmap Z float) : result (gmap Z float) :=
  s ← Np.float_of_int (size ^ 2);
  Ok (<[size := (base_conductance * s)%float]> d).

(** [__init__(max_fib)]; the default is [max_fib = 23]. *)
Definition AnalogComputingSimulator_init (max_fib : Z)
  : result AnalogComputingSimulator :=
  fm ← FractalMultiplier_init max_fib;
  let base_conductance := 1e-6%float in
  cells ← for_in (cell_entry base_conductance) (fib fm) ∅;
  Ok {| fm := fm; gcd := EuclideanGCD_init;
        base_conductance := base_conductance;
        cells := cells; noise_std := 0.05%float |}.

(** [self.noise_std = s] *)
Definition set_noise_std (self : AnalogComputingSimulator) (s : float)
  : AnalogComputingSimulator :=
  {| fm := fm self; gcd := gcd self;
     base_conductance := base_conductance self;
     cells := cells self; noise_std := s |}.

Record MultiplicationResult : Type := mkMultiplicationResult {
  true_product : Z;
  measured_product : float;
  active_cells : Z;
  error_percent : float;
  snr_db : float
}.

(** One element of the [conductances] comprehension. *)
Definition noisy_conductance (self : AnalogComputingSimulator) (size : Z)
    (st : list float * Np.RandomState)
  : result (list float * Np.RandomState) :=
  let '(conductances, rs) := st in
  c ← dict_get (cells self) size;
  '(x, rs) ← Np.random_normal 1%float (noise_std self) rs;
  Ok (conductances ++ [(c * x)%float], rs).

Definition simulate_multiplication (np : Np.lib)
    (self : AnalogComputingSimulator) (a b : Z) (voltage : float)
    (rs : Np.RandomState)
  : result (MultiplicationResult * Np.RandomState) :=
  if decide (a ∉ fib_set (fm self) ∨ b ∉ fib_set (fm self)) then
    Raise (ValueError "Both numbers must be Fibonacci")
  else
    let smaller := Z.min a b in
    idx ← index smaller (fib (fm self));
    let active_cells := slice_to (fib (fm self)) (idx + 1) in
    '(conductances, rs) ← for_in (noisy_conductance self) active_cells ([], rs);
    let total_conductance := Np.sum conductances in
    let current := (voltage * total_conductance)%float in
    let measured_product := (current / base_conductance self)%float in
    ab ← Np.float_of_int (a * b);
    Ok ({| true_product := a * b;
           measured_product := measured_product;
           active_cells := Z.of_nat (length active_cells);
           error_percent := (abs (measured_product - ab) / ab * 100)%float;
           snr_db := (20 * Np.log10 np
                        (measured_product /
                           float_max 1e-12 (Np.std np conductances)))%float |},
        rs).

Record DeactivationStep : Type := mkDeactivationStep {
  step : Z;
  deactivated : Z;
  remaining_conductance : float
}.

(** The dictionary [simulate_gcd_computation] returns; [gcd_value] is its
    key ['gcd']. *)
Record GcdResult : Type := mkGcdResult {
  gcd_value : Z;
  steps : Z;
  cells_deactivated : list DeactivationStep;
  final_active_cells : list Z
}.

(** [enumerate(l)] *)
Definition enumerate {A} (l : list A) : list (Z * A) :=
  zip (Z.of_nat <$> seq 0 (length l)) l.

(** [sum(self.cells[c] for c in active_cells)].  A Python set is walked in
    an order the language leaves open; [elements] fixes one. *)
Definition remaining (self : AnalogComputingSimulator) (active_cells : gset Z)
  : result float :=
  for_in (fun c acc => g ← dict_get (cells self) c; Ok (acc + g)%float)
         (elements active_cells) 0%float.

(** The body of the loop over [enumerate(self.gcd.path[:-1])]. *)
Definition deactivate (self : AnalogComputingSimulator)
    (entry : Z * (Z * Z)) (st : gset Z * list DeactivationStep)
  : result (gset Z * list DeactivationStep) :=
  let '(i, (a_val, b_val)) := entry in
  let '(active_cells, steps) := st in
  if decide (b_val ∈ active_cells) then
    let active_cells := active_cells ∖ {[b_val]} in
    rc ← remaining self active_cells;
    Ok (active_cells,
        steps ++ [{| step := i; deactivated := b_val;
                     remaining_conductance := rc |}])
  else Ok (active_cells, steps).

Definition simulate_gcd_computation (self : AnalogComputingSimulator) (a b : Z)
  : result (GcdResult * AnalogComputingSimulator) :=
  if decide (a ∉ fib_set (fm self) ∨ b ∉ fib_set (fm self)) then
    Raise (ValueError "Both numbers must be Fibonacci")
  else
    let smaller := Z.min a b in
    idx ← index smaller (fib (fm self));
    let active_cells : gset Z :=
      list_to_set (slice_to (fib (fm self)) (idx + 1)) in
    let '((gcd_result, operations), tracer) := compute_gcd (gcd self) a b in
    let self := {| fm := fm self; gcd := tracer;
                   base_conductance := base_conductance self;
                   cells := cells self; noise_std := noise_std self |} in
    '(active_cells, steps) ←
      for_in (deactivate self) (enumerate (all_but_last (path (gcd self))))
             (active_cells, []);
    Ok ({| gcd_value := gcd_result;
           steps := Z.of_nat (length steps);
           cells_deactivated := steps;
           final_active_cells := elements active_cells |},
        self).

(** * Vocabulary of the properties *)

(** The steps and the path that the loop appends when started on [(a, b)],
    and the value it ends with. *)
Inductive euclid_trace : Z -> Z -> list (Z * Z * Z) -> list (Z * Z) -> Z -> Prop :=
| trace_stop (a : Z) : euclid_trace a 0 [] [] a
| trace_divide (a b : Z) ops pth g :
    b <> 0 ->
    euclid_trace b (a mod b) ops pth g ->
    euclid_trace a b ((a / b, a mod b, 1) :: ops) ((a, b) :: pth) g.

(** What [get_subtraction_sequence] builds from the steps and the path. *)
Definition expand (ops : list (Z * Z * Z)) (pth : list (Z * Z)) : list Z :=
  concat (zip_with (fun op p => replicate (Z.to_nat op.1.1) p.2) ops pth).

(** The entry at position [n] of the table, counted from 0. *)
Fixpoint Fib (n : nat) : Z :=
  match n with
  | O => 1
  | S m => match m with
           | O => 1
           | S p => Fib m + Fib p
           end
  end.

(** The first position of the value [Fib k]: the two leading entries are
    both 1, every later entry is new. *)
Definition first_position (k : nat) : nat :=
  match k with
  | 1%nat => 0%nat
  | _ => k
  end.

(** The sum of the squares of the entries up to position [k]. *)
Fixpoint square_sum (k : nat) : Z :=
  match k with
  | O => Fib 0 * Fib 0
  | S k' => square_sum k' + Fib k * Fib k
  end.

(** The first [n] entries. *)
Definition table (n : nat) : list Z := Fib <$> seq 0 n.

(** A simulator whose table and cells are those [__init__] builds; it is
    kept by every assignment to [noise_std] and by both simulations. *)
Definition well_built (self : AnalogComputingSimulator) : Prop :=
  (exists max_fib, FractalMultiplier_init max_fib = Ok (fm self))
  /\ forall x, x ∈ fib (fm self) ->
       is_Some (cells self !! x) /\ Z.abs (x ^ 2) < 2 ^ 1024 - 2 ^ 970.

(** The state of the deactivation loop: the active set and the removed
    values split the initial set, and nothing is removed twice. *)
Definition splits (initial : gset Z)
    (st : gset Z * list DeactivationStep) : Prop :=
  let removed := deactivated <$> st.2 in
  st.1 ⊆ initial
  /\ NoDup removed
  /\ (forall v, v ∈ removed -> v ∈ initial /\ v ∉ st.1)
  /\ (forall v, v ∈ initial -> v ∈ st.1 \/ v ∈ removed).

(** * Properties *)

(** ** Loops and lists *)

Section ForIn.
Context {A S : Type} (body : A -> S -> result S).

Lemma for_in_cons (x : A) (l : list A) (s : S) :
  for_in body (x :: l) s = (s' ← body x s; for_in body l s').
Proof. done. Qed.

Lemma for_in_app (l1 l2 : list A) (s : S) :
  for_in body (l1 ++ l2) s = (s' ← for_in body l1 s; for_in body l2 s').
Proof.
  revert s. induction l1 as [|x l1 IH]; intros s; simpl; [done|].
  destruct (body x s) as [s'|e]; simpl; [apply IH|done].
Qed.

(** A property that every turn keeps holds when the loop ends, and a loop
    whose turns cannot raise under it ends normally. *)
Lemma for_in_total (I : S -> Prop) (l : list A) :
  (forall x s, x ∈ l -> I s -> exists s', body x s = Ok s' /\ I s') ->
  forall s, I s -> exists s', for_in body l s = Ok s' /\ I s'.
Proof.
  induction l as [|x l IH]; intros Hbody s Hs; simpl; [by exists s|].
  destruct (Hbody x s) as (s1 & -> & Hs1); [left|done|]. simpl.
  apply IH; [|done]. intros y s2 Hy. apply Hbody. by right.
Qed.

Lemma for_in_invariant (I : S -> Prop) (l : list A) :
  (forall x s s', x ∈ l -> I s -> body x s = Ok s' -> I s') ->
  forall s s', I s -> for_in body l s = Ok s' -> I s'.
Proof.
  induction l as [|x l IH]; intros Hbody s s' Hs; simpl.
  - by intros [= <-].
  - destruct (body x s) as [s1|e] eqn:E; simpl; [|done].
    apply IH; [|eapply Hbody; [left|done..]].
    intros y s2 s3 Hy. apply Hbody. by right.
Qed.
End ForIn.

Lemma range_0_S (n : nat) :
  range 0 (Z.of_nat (S n)) = range 0 (Z.of_nat n) ++ [Z.of_nat n].
Proof.
  unfold range. rewrite !Z.sub_0_r, !Nat2Z.id, seq_S, fmap_app. done.
Qed.

Lemma getitem_nat {A} (l : list A) (i : nat) :
  getitem l (Z.of_nat i) =
  match l !! i with Some x => Ok x | None => Raise IndexError end.
Proof.
  unfold getitem. rewrite decide_True by lia. by rewrite Nat2Z.id.
Qed.

Lemma getitem_from_end {A} (l : list A) (k : nat) :
  (0 < k <= length l)%nat ->
  getitem l (- Z.of_nat k) =
  match l !! (length l - k)%nat with
  | Some x => Ok x
  | None => Raise IndexError
  end.
Proof.
  intros Hk. unfold getitem. rewrite decide_False by lia.
  replace (Z.to_nat (Z.of_nat (length l) + - Z.of_nat k))
    with (length l - k)%nat by lia.
  destruct (l !! (length l - k)%nat); [|done].
  by rewrite decide_True by lia.
Qed.

Lemma sum_from (l : list Z) (z : Z) : fold_left Z.add l z = z + Py.sum l.
Proof.
  unfold Py.sum. revert z. induction l as [|x l IH]; intros z; simpl; [lia|].
  rewrite (IH (z + x)), (IH (0 + x)). lia.
Qed.

Lemma sum_cons (x : Z) (l : list Z) : Py.sum (x :: l) = x + Py.sum l.
Proof. unfold Py.sum at 1. simpl. apply sum_from. Qed.

Lemma sum_app (l1 l2 : list Z) : Py.sum (l1 ++ l2) = Py.sum l1 + Py.sum l2.
Proof.
  induction l1 as [|x l1 IH]; simpl; [done|]. rewrite !sum_cons, IH. lia.
Qed.

Lemma sum_replicate (n : nat) (x : Z) : Py.sum (replicate n x) = Z.of_nat n * x.
Proof.
  induction n as [|n IH]; [done|].
  change (replicate (S n) x) with (x :: replicate n x).
  rewrite sum_cons, IH. lia.
Qed.

(** ** The Euclidean tracer *)

Lemma gcd_loop_trace (self : EuclideanGCD) (a b : Z) :
  exists ops pth g,
    gcd_loop self a b =
      (g, {| path := path self ++ pth; operations := operations self ++ ops |})
    /\ euclid_trace a b ops pth g.
Proof.
  funelim (gcd_loop self a b).
  - exists [], [], a. rewrite !app_nil_r. split; [by destruct self|].
    subst. constructor.
  - destruct H as (ops & pth & g & Hloop & Htr). simpl in Hloop.
    exists ((a / b, a mod b, 1) :: ops), ((a, b) :: pth), g. split.
    + rewrite Hloop. by rewrite <- !app_assoc.
    + by constructor.
Qed.

Lemma compute_gcd_trace (self : EuclideanGCD) (a b : Z) :
  exists ops pth g,
    compute_gcd self a b =
      ((g, ops), {| path := pth ++ [(g, 0)]; operations := ops |})
    /\ euclid_trace a b ops pth g.
Proof.
  unfold compute_gcd.
  destruct (gcd_loop_trace {| path := []; operations := [] |} a b)
    as (ops & pth & g & -> & Htr).
  by exists ops, pth, g.
Qed.

Lemma euclid_trace_length a b ops pth g :
  euclid_trace a b ops pth g -> length ops = length pth.
Proof. induction 1; simpl; congruence. Qed.

Lemma euclid_trace_gcd a b ops pth g :
  euclid_trace a b ops pth g -> 0 <= a -> 0 <= b -> g = Z.gcd a b.
Proof.
  induction 1 as [a|a b ops pth g Hb _ IH]; intros Ha Hb'.
  - rewrite Z.gcd_0_r. lia.
  - rewrite IH; [|lia|apply Z.mod_pos_bound; lia].
    rewrite (Z.gcd_comm b), Z.gcd_mod by done. apply Z.gcd_comm.
Qed.

Lemma subtraction_step_at (self : EuclideanGCD) (i : nat) q r c x y acc :
  operations self !! i = Some (q, r, c) ->
  path self !! i = Some (x, y) ->
  subtraction_step self (0 + Z.of_nat i) acc
  = Ok (acc ++ replicate (Z.to_nat q) y).
Proof.
  intros Hop Hp. unfold subtraction_step.
  by rewrite Z.add_0_l, !getitem_nat, Hop, Hp.
Qed.

Lemma subtraction_loop (self : EuclideanGCD) ops pth :
  length ops = length pth ->
  forall ops0 pth0 rest acc,
    operations self = ops0 ++ ops ->
    path self = pth0 ++ pth ++ rest ->
    length ops0 = length pth0 ->
    for_in (subtraction_step self)
      ((fun k : nat => 0 + Z.of_nat k) <$> seq (length ops0) (length ops)) acc
    = Ok (acc ++ expand ops pth).
Proof.
  revert pth. induction ops as [|[[q r] c] ops IH]; intros [|[x y] pth] Hlen;
    try discriminate; intros ops0 pth0 rest acc Hops Hpth Hlen0.
  - simpl. by rewrite app_nil_r.
  - simpl length. rewrite <- cons_seq, fmap_cons, for_in_cons.
    rewrite (subtraction_step_at self (length ops0) q r c x y).
    2: { rewrite Hops. by apply list_lookup_middle. }
    2: { rewrite Hpth. by apply list_lookup_middle. }
    simpl.
    specialize (IH pth ltac:(simpl in Hlen; lia) (ops0 ++ [(q, r, c)])
                  (pth0 ++ [(x, y)]) rest (acc ++ replicate (Z.to_nat q) y)).
    rewrite length_app, Nat.add_1_r in IH.
    rewrite IH.
    + unfold expand. simpl. by rewrite <- app_assoc.
    + by rewrite <- app_assoc.
    + by rewrite <- app_assoc.
    + rewrite !length_app. simpl. lia.
Qed.

Lemma subtraction_sequence_expand ops pth g :
  length ops = length pth ->
  get_subtraction_sequence {| path := pth ++ [(g, 0)]; operations := ops |}
  = Ok (expand ops pth).
Proof.
  intros Hlen. unfold get_subtraction_sequence, range. simpl.
  rewrite Z.sub_0_r, Nat2Z.id.
  by apply (subtraction_loop _ ops pth Hlen [] [] [(g, 0)] []).
Qed.

Lemma expand_cons q r c x y ops pth :
  expand ((q, r, c) :: ops) ((x, y) :: pth)
  = replicate (Z.to_nat q) y ++ expand ops pth.
Proof. done. Qed.

(** The telescoping sum: each step subtracts [a - a mod b]. *)
Lemma euclid_trace_sum a b ops pth g :
  euclid_trace a b ops pth g -> 0 <= a -> 0 <= b ->
  Py.sum (expand ops pth) + g = a + b.
Proof.
  induction 1 as [a|a b ops pth g Hb _ IH]; intros Ha Hb'.
  - unfold expand. simpl. unfold Py.sum. simpl. lia.
  - rewrite expand_cons, sum_app, sum_replicate.
    pose proof (Z.mod_pos_bound a b ltac:(lia)).
    pose proof (Z.div_pos a b Ha ltac:(lia)).
    pose proof (Z.div_mod a b Hb).
    specialize (IH ltac:(lia) ltac:(lia)). nia.
Qed.

Lemma euclid_trace_length_sum a b ops pth g :
  euclid_trace a b ops pth g -> 0 <= a -> 0 <= b ->
  Z.of_nat (length (expand ops pth)) = Py.sum ((fun op => op.1.1) <$> ops).
Proof.
  induction 1 as [a|a b ops pth g Hb _ IH]; intros Ha Hb'; [done|].
  rewrite expand_cons, length_app, length_replicate, fmap_cons, sum_cons.
  pose proof (Z.mod_pos_bound a b ltac:(lia)).
  pose proof (Z.div_pos a b Ha ltac:(lia)).
  rewrite Nat2Z.inj_add, IH by lia. simpl. lia.
Qed.

Lemma euclid_trace_empty a b ops pth g :
  euclid_trace a b ops pth g -> 0 <= a -> 0 <= b ->
  expand ops pth = [] <-> a = 0 \/ b = 0.
Proof.
  intros Htr Ha Hb. destruct Htr as [a|a b ops pth g Hb0 Htr].
  - split; [by right|done].
  - rewrite expand_cons.
    assert (0 < b) as Hpos by lia.
    destruct (decide (a = 0)) as [->|Ha0].
    + rewrite Z.mod_0_l in Htr by done. inversion Htr; subst; [|done].
      split; [by left|]. intros _. by rewrite Z.div_0_l by done.
    + split; [|lia]. intros Hnil. exfalso.
      apply app_eq_nil in Hnil as [Hq Hrest].
      assert (a / b = 0) as Hdiv.
      { pose proof (Z.div_pos a b Ha ltac:(lia)).
        destruct (Z.to_nat (a / b)) eqn:E; [lia|discriminate]. }
      apply Z.div_small_iff in Hdiv as [Hsmall|?]; [|lia..].
      rewrite Z.mod_small in Htr by done.
      inversion Htr as [|? ? ops' pth' ? _ Htr']; subst; [lia|].
      rewrite expand_cons in Hrest. apply app_eq_nil in Hrest as [Hq' _].
      assert (1 <= b / a) by (apply Z.div_le_lower_bound; lia).
      destruct (Z.to_nat (b / a)) eqn:E; [lia|discriminate].
Qed.

(** The worst case of the specification: [compute_gcd(21, 13)]. *)
Example compute_gcd_21_13 :
  (compute_gcd EuclideanGCD_init 21 13).1
  = (1, [(1, 8, 1); (1, 5, 1); (1, 3, 1); (1, 2, 1); (1, 1, 1); (2, 0, 1)]).
Proof. reflexivity. Qed.

(** C2: on non-negative integers, Fibonacci or not, the first component
    that [compute_gcd] returns is the greatest common divisor of [a] and
    [b]: it divides both, every common divisor divides it, it is not
    negative, and it is [Z.gcd a b].  The call always returns:
    [compute_gcd] is a total function. *)
Theorem compute_gcd_is_gcd (self : EuclideanGCD) (a b : Z) :
  0 <= a -> 0 <= b ->
  let g := (compute_gcd self a b).1.1 in
  g = Z.gcd a b /\ 0 <= g /\ Z.divide g a /\ Z.divide g b
  /\ (forall d, Z.divide d a -> Z.divide d b -> Z.divide d g).
Proof.
  intros Ha Hb.
  destruct (compute_gcd_trace self a b) as (ops & pth & g & -> & Htr). simpl.
  rewrite (euclid_trace_gcd _ _ _ _ _ Htr Ha Hb).
  split; [done|]. split; [apply Z.gcd_nonneg|].
  split; [apply Z.gcd_divide_l|]. split; [apply Z.gcd_divide_r|].
  intros d. apply Z.gcd_greatest.
Qed.

Lemma compute_gcd_is_gcd_witness :
  let g := (compute_gcd EuclideanGCD_init 12 18).1.1 in
  g = Z.gcd 12 18 /\ 0 <= g /\ Z.divide g 12 /\ Z.divide g 18
  /\ (forall d, Z.divide d 12 -> Z.divide d 18 -> Z.divide d g).
Proof. apply (compute_gcd_is_gcd EuclideanGCD_init 12 18); lia. Defined.

(** C6: after [compute_gcd(a, b)] on non-negative integers the path has
    exactly one more entry than the step sequence, which is the list
    returned; its last entry is [(gcd, 0)]; and for [b = 0] there is no
    step, the gcd is [a] and the path is [[(a, 0)]]. *)
Theorem path_one_longer (self self' : EuclideanGCD) (a b g : Z) ops :
  0 <= a -> 0 <= b ->
  compute_gcd self a b = ((g, ops), self') ->
  ops = operations self'
  /\ length (path self') = S (length (operations self'))
  /\ last (path self') = Some (g, 0)
  /\ (b = 0 -> operations self' = [] /\ g = a /\ path self' = [(a, 0)]).
Proof.
  intros _ _.
  destruct (compute_gcd_trace self a b) as (ops' & pth & g' & -> & Htr).
  intros [= <- <- <-]. simpl.
  split; [done|]. split; [|split].
  - rewrite length_app, (euclid_trace_length _ _ _ _ _ Htr). simpl. lia.
  - apply last_snoc.
  - intros ->. by inversion Htr.
Qed.

Lemma path_one_longer_witness :
  [(1, 8, 1); (1, 5, 1); (1, 3, 1); (1, 2, 1); (1, 1, 1); (2, 0, 1)]
  = operations (compute_gcd EuclideanGCD_init 21 13).2
  /\ length (path (compute_gcd EuclideanGCD_init 21 13).2)
     = S (length (operations (compute_gcd EuclideanGCD_init 21 13).2))
  /\ last (path (compute_gcd EuclideanGCD_init 21 13).2) = Some (1, 0)
  /\ (13 = 0 ->
      operations (compute_gcd EuclideanGCD_init 21 13).2 = []
      /\ 1 = 21
      /\ path (compute_gcd EuclideanGCD_init 21 13).2 = [(21, 0)]).
Proof.
  apply (path_one_longer EuclideanGCD_init _ 21 13 1); [lia|lia|reflexivity].
Defined.

(** C4, as stated, fails on the Fibonacci pair (21, 13): the subtraction
    sequence is [13, 8, 5, 3, 2, 1, 1], and with the gcd 1 it sums to 34,
    not to the dividend 21. *)
Lemma subtraction_sum_not_dividend :
  ~ (exists sequence,
        get_subtraction_sequence (compute_gcd EuclideanGCD_init 21 13).2
          = Ok sequence
        /\ Py.sum sequence + (compute_gcd EuclideanGCD_init 21 13).1.1 = 21).
Proof.
  intros (sequence & Hseq & Hsum). vm_compute in Hseq.
  injection Hseq as <-. vm_compute in Hsum. discriminate.
Qed.

(** C4, amended: after [compute_gcd(a, b)] on non-negative integers, so on
    every Fibonacci pair, [get_subtraction_sequence()] returns a sequence
    whose sum plus the gcd is [a + b], the sum of both operands. *)
Theorem subtraction_sum_reconstructs (self : EuclideanGCD) (a b : Z) :
  0 <= a -> 0 <= b ->
  exists sequence,
    get_subtraction_sequence (compute_gcd self a b).2 = Ok sequence
    /\ Py.sum sequence + (compute_gcd self a b).1.1 = a + b.
Proof.
  intros Ha Hb.
  destruct (compute_gcd_trace self a b) as (ops & pth & g & -> & Htr). simpl.
  exists (expand ops pth). split.
  - apply subtraction_sequence_expand, (euclid_trace_length _ _ _ _ _ Htr).
  - by apply (euclid_trace_sum _ _ _ _ _ Htr).
Qed.

Lemma subtraction_sum_reconstructs_witness :
  exists sequence,
    get_subtraction_sequence (compute_gcd EuclideanGCD_init 21 13).2
      = Ok sequence
    /\ Py.sum sequence + (compute_gcd EuclideanGCD_init 21 13).1.1 = 21 + 13.
Proof. apply (subtraction_sum_reconstructs EuclideanGCD_init 21 13); lia. Defined.

(** C7, at equal operands: [compute_gcd(5, 5)] runs the loop once, records
    the step (1, 0, 1) with the path entry (5, 5), and
    [get_subtraction_sequence()] returns [5], where the claim and the
    comments of the plotting code expect an empty sequence. *)
Theorem subtraction_sequence_5_5 :
  operations (compute_gcd EuclideanGCD_init 5 5).2 = [(1, 0, 1)]
  /\ path (compute_gcd EuclideanGCD_init 5 5).2 = [(5, 5); (5, 0)]
  /\ get_subtraction_sequence (compute_gcd EuclideanGCD_init 5 5).2 = Ok [5]
  /\ [5] <> @nil Z.
Proof. repeat split; done. Qed.

(** So the wording of C7 does not hold of the code at (5, 5). *)
Lemma subtraction_sequence_equal_operands :
  ~ (exists sequence,
        get_subtraction_sequence (compute_gcd EuclideanGCD_init 5 5).2
          = Ok sequence
        /\ (sequence = [] <->
            operations (compute_gcd EuclideanGCD_init 5 5).2 = [])
        /\ (sequence = [] <-> 5 = 5 \/ 5 = 0)).
Proof.
  intros (sequence & Hseq & _ & Hempty). vm_compute in Hseq.
  injection Hseq as <-.
  assert ([5] = @nil Z) as Hnil by (apply Hempty; by left). discriminate.
Qed.

(** With a zero dividend the step sequence is not empty although the
    subtraction sequence is. *)
Lemma subtraction_sequence_zero_dividend :
  get_subtraction_sequence (compute_gcd EuclideanGCD_init 0 5).2 = Ok []
  /\ operations (compute_gcd EuclideanGCD_init 0 5).2 = [(0, 0, 1)].
Proof. split; reflexivity. Qed.

(** What the code does on non-negative operands: the sequence that
    [get_subtraction_sequence()] returns has as many elements as the step
    quotients sum to; the loop records no step exactly when [b = 0]; and
    the returned sequence has no element exactly when [a = 0] or [b = 0]. *)
Theorem subtraction_sequence_length (self : EuclideanGCD) (a b : Z) :
  0 <= a -> 0 <= b ->
  exists sequence,
    get_subtraction_sequence (compute_gcd self a b).2 = Ok sequence
    /\ Z.of_nat (length sequence)
       = Py.sum ((fun op => op.1.1) <$> operations (compute_gcd self a b).2)
    /\ (operations (compute_gcd self a b).2 = [] <-> b = 0)
    /\ (sequence = [] <-> a = 0 \/ b = 0).
Proof.
  intros Ha Hb.
  destruct (compute_gcd_trace self a b) as (ops & pth & g & -> & Htr). simpl.
  exists (expand ops pth). split; [|split; [|split]].
  - apply subtraction_sequence_expand, (euclid_trace_length _ _ _ _ _ Htr).
  - by apply (euclid_trace_length_sum _ _ _ _ _ Htr).
  - destruct Htr; split; done.
  - by apply (euclid_trace_empty _ _ _ _ _ Htr).
Qed.

Lemma subtraction_sequence_length_witness :
  exists sequence,
    get_subtraction_sequence (compute_gcd EuclideanGCD_init 21 13).2
      = Ok sequence
    /\ Z.of_nat (length sequence)
       = Py.sum ((fun op => op.1.1)
                   <$> operations (compute_gcd EuclideanGCD_init 21 13).2)
    /\ (operations (compute_gcd EuclideanGCD_init 21 13).2 = [] <-> 13 = 0)
    /\ (sequence = [] <-> 21 = 0 \/ 13 = 0).
Proof. apply (subtraction_sequence_length EuclideanGCD_init 21 13); lia. Defined.

(** ** The Fibonacci table *)

Lemma Fib_SS (n : nat) : Fib (S (S n)) = Fib (S n) + Fib n.
Proof. done. Qed.

Lemma Fib_pos (n : nat) : 1 <= Fib n.
Proof.
  induction n as [n IH] using lt_wf_ind.
  destruct n as [|[|n]]; [done..|]. rewrite Fib_SS.
  pose proof (IH (S n) ltac:(lia)). pose proof (IH n ltac:(lia)). lia.
Qed.

Lemma Fib_mono_S (n : nat) : Fib n <= Fib (S n).
Proof.
  destruct n as [|n]; [done|]. rewrite Fib_SS. pose proof (Fib_pos n). lia.
Qed.

Lemma Fib_lt_S (n : nat) : (1 <= n)%nat -> Fib n < Fib (S n).
Proof.
  destruct n as [|n]; [lia|]. intros _. rewrite Fib_SS.
  pose proof (Fib_pos n). lia.
Qed.

Lemma Fib_mono (i j : nat) : (i <= j)%nat -> Fib i <= Fib j.
Proof.
  induction 1 as [|j _ IH]; [done|]. pose proof (Fib_mono_S j). lia.
Qed.

Lemma Fib_lt (i j : nat) : (1 <= i < j)%nat -> Fib i < Fib j.
Proof.
  intros [Hi Hij]. pose proof (Fib_lt_S i Hi).
  pose proof (Fib_mono (S i) j Hij). lia.
Qed.

Lemma Fib_first_position (k : nat) : Fib (first_position k) = Fib k.
Proof. by destruct k as [|[|k]]. Qed.

Lemma Fib_before_first (j k : nat) :
  (j < first_position k)%nat -> Fib j <> Fib k.
Proof.
  destruct k as [|[|k]]; [simpl; lia..|].
  change (first_position (S (S k))) with (S (S k)). intros Hj.
  destruct j as [|j].
  - pose proof (Fib_lt 1 (S (S k)) ltac:(lia)).
    change (Fib 0) with (Fib 1). lia.
  - pose proof (Fib_lt (S j) (S (S k)) ltac:(lia)). lia.
Qed.

Lemma square_sum_product (k : nat) : square_sum k = Fib k * Fib (S k).
Proof.
  induction k as [|k IH]; [done|].
  change (square_sum (S k)) with (square_sum k + Fib (S k) * Fib (S k)).
  rewrite IH, (Fib_SS k). lia.
Qed.

Lemma table_lookup (n i : nat) : (i < n)%nat -> table n !! i = Some (Fib i).
Proof.
  intros Hi. unfold table. rewrite list_lookup_fmap, lookup_seq_lt by done.
  done.
Qed.

Lemma table_elem (n : nat) (x : Z) :
  x ∈ table n <-> exists k, (k < n)%nat /\ x = Fib k.
Proof.
  unfold table. rewrite list_elem_of_fmap. setoid_rewrite elem_of_seq.
  split; intros (k & H1 & H2); exists k; split; (done || lia).
Qed.

Lemma table_S (n : nat) : table (S n) = table n ++ [Fib n].
Proof. unfold table. by rewrite seq_S, fmap_app. Qed.

Lemma fibonacci_step_table (i : Z) (m : nat) :
  (2 <= m)%nat -> fibonacci_step i (table m) = Ok (table (S m)).
Proof.
  intros Hm. unfold fibonacci_step.
  assert (length (table m) = m) as Hlen
      by (unfold table; by rewrite length_fmap, length_seq).
  change (-1) with (- Z.of_nat 1). change (-2) with (- Z.of_nat 2).
  rewrite (getitem_from_end (table m) 1), (getitem_from_end (table m) 2)
    by lia.
  rewrite Hlen, !table_lookup by lia. simpl.
  replace (Fib (m - 1) + Fib (m - 2)) with (Fib m).
  2: { destruct m as [|[|m]]; [lia..|].
       rewrite Fib_SS. repeat f_equal; lia. }
  by rewrite <- table_S.
Qed.

Lemma fibonacci_loop (indices : list Z) (m : nat) :
  (2 <= m)%nat ->
  for_in fibonacci_step indices (table m) = Ok (table (m + length indices)).
Proof.
  revert m. induction indices as [|i indices IH]; intros m Hm.
  - simpl. by rewrite Nat.add_0_r.
  - rewrite for_in_cons, fibonacci_step_table by done. simpl.
    rewrite IH by lia. f_equal. f_equal. lia.
Qed.

(** The table has [max(n, 2)] entries, the Fibonacci numbers in order. *)
Lemma generate_fibonacci_table (n : Z) :
  _generate_fibonacci n = Ok (table (2 + Z.to_nat (n - 2))).
Proof.
  unfold _generate_fibonacci. change [1; 1] with (table 2).
  rewrite fibonacci_loop by lia. unfold range.
  by rewrite length_fmap, length_seq.
Qed.

Lemma squares_of_lookup (l : list Z) (x : Z) :
  x ∈ l -> squares_of l !! x = Some (x * x).
Proof.
  unfold squares_of.
  assert (forall d : gmap Z Z,
            fold_left (fun d f => <[f := f * f]> d) l d !! x
            = if decide (x ∈ l) then Some (x * x) else d !! x) as Hfold.
  { induction l as [|y l IH]; intros d; simpl.
    - destruct (decide (x ∈ [])) as [Hd|_]; [by apply elem_of_nil in Hd|done].
    - rewrite IH.
      destruct (decide (x ∈ l)) as [Hin|Hnin],
               (decide (x ∈ y :: l)) as [Hin'|Hnin']; try done.
      + exfalso. apply Hnin'. by right.
      + apply elem_of_cons in Hin' as [->|?]; [|done].
        by rewrite lookup_insert_eq.
      + rewrite lookup_insert_ne; [done|]. intros ->. apply Hnin'. left. }
  intros Hin. rewrite Hfold. by destruct (decide (x ∈ l)).
Qed.

Lemma index_first (x : Z) (l : list Z) (i : nat) :
  l !! i = Some x ->
  (forall j y, (j < i)%nat -> l !! j = Some y -> y <> x) ->
  index x l = Ok (Z.of_nat i).
Proof.
  revert i. induction l as [|y l IH]; intros i Hi Hfirst; [done|]. simpl.
  destruct i as [|i].
  - injection Hi as ->. by rewrite decide_True.
  - rewrite decide_False by (apply (Hfirst 0%nat); [lia|done]).
    rewrite (IH i); [simpl; f_equal; lia|done|].
    intros j z Hj Hz. apply (Hfirst (S j)); [lia|done].
Qed.

Lemma table_index (n k : nat) :
  (k < n)%nat -> index (Fib k) (table n) = Ok (Z.of_nat (first_position k)).
Proof.
  intros Hk.
  assert (first_position k <= k)%nat by (destruct k as [|[|k]]; simpl; lia).
  apply index_first.
  - rewrite table_lookup by lia. by rewrite Fib_first_position.
  - intros j y Hj. rewrite table_lookup by lia. intros [= <-].
    by apply Fib_before_first.
Qed.

(** A multiplier as [__init__] builds it. *)
Lemma FractalMultiplier_init_table (max_n : Z) (self : FractalMultiplier) :
  FractalMultiplier_init max_n = Ok self ->
  exists n, (2 <= n)%nat
    /\ fib self = table n
    /\ fib_set self = list_to_set (table n)
    /\ squares self = squares_of (table n).
Proof.
  unfold FractalMultiplier_init. rewrite generate_fibonacci_table. simpl.
  intros [= <-]. exists (2 + Z.to_nat (max_n - 2))%nat. simpl.
  split; [lia|done].
Qed.

Lemma FractalMultiplier_init_ok (max_n : Z) :
  exists self, FractalMultiplier_init max_n = Ok self.
Proof.
  unfold FractalMultiplier_init. rewrite generate_fibonacci_table. simpl.
  by eexists.
Qed.

Lemma square_term_at (self : FractalMultiplier) (n k : nat) (acc : Z) :
  fib self = table n -> squares self = squares_of (table n) ->
  (k < n)%nat ->
  square_term self (Z.of_nat k) acc = Ok (acc + Fib k * Fib k).
Proof.
  intros Hfib Hsq Hk. unfold square_term.
  rewrite getitem_nat, Hfib, table_lookup by done. simpl.
  unfold dict_get. rewrite Hsq, squares_of_lookup; [done|].
  apply table_elem. by exists k.
Qed.

Lemma square_term_loop (self : FractalMultiplier) (n k : nat) :
  fib self = table n -> squares self = squares_of (table n) ->
  (k < n)%nat ->
  for_in (square_term self) (range 0 (Z.of_nat (S k))) 0 = Ok (square_sum k).
Proof.
  intros Hfib Hsq Hk. induction k as [|k IH].
  - change (range 0 (Z.of_nat 1)) with [Z.of_nat 0].
    by rewrite for_in_cons, (square_term_at self n).
  - rewrite range_0_S, for_in_app, IH by lia. simpl.
    by rewrite (square_term_at self n).
Qed.

(** On two table members the fast path returns the sum of the squares up to
    the first position of the smaller one. *)
Lemma compute_product_members (self : FractalMultiplier) (n i j : nat) :
  fib self = table n -> fib_set self = list_to_set (table n) ->
  squares self = squares_of (table n) ->
  (i <= j < n)%nat ->
  compute_product self (Fib i) (Fib j) = Ok (square_sum (first_position i))
  /\ compute_product self (Fib j) (Fib i) = Ok (square_sum (first_position i)).
Proof.
  intros Hfib Hset Hsq Hij.
  assert (first_position i <= i)%nat by (destruct i as [|[|i]]; simpl; lia).
  assert (Fib i ∈ fib_set self /\ Fib j ∈ fib_set self) as [Hi Hj].
  { rewrite Hset, !elem_of_list_to_set, !table_elem.
    split; eexists; (split; [|done]); lia. }
  pose proof (Fib_mono i j ltac:(lia)).
  unfold compute_product.
  rewrite !decide_False by tauto.
  rewrite Z.min_l, Z.min_r by done.
  rewrite Hfib, table_index by lia. simpl.
  replace (Z.of_nat (first_position i) + 1)
    with (Z.of_nat (S (first_position i))) by lia.
  rewrite (square_term_loop self n) by (done || lia). done.
Qed.

Lemma member_is_Fib (max_n : Z) (self : FractalMultiplier) (x : Z) :
  FractalMultiplier_init max_n = Ok self ->
  x ∈ fib_set self <-> exists k, (k < length (fib self))%nat /\ x = Fib k.
Proof.
  intros (n & _ & Hfib & Hset & _)%FractalMultiplier_init_table.
  rewrite Hset, Hfib, elem_of_list_to_set, table_elem.
  unfold table. by rewrite length_fmap, length_seq.
Qed.

(** The identity behind the fast path: two neighbours of the table, from
    the pair (2, 3) on, are multiplied exactly, in either order. *)
Lemma compute_product_consecutive (max_n : Z) (self : FractalMultiplier)
    (k : nat) :
  FractalMultiplier_init max_n = Ok self ->
  (2 <= k)%nat -> (S k < length (fib self))%nat ->
  compute_product self (Fib k) (Fib (S k)) = Ok (Fib k * Fib (S k))
  /\ compute_product self (Fib (S k)) (Fib k) = Ok (Fib (S k) * Fib k).
Proof.
  intros (n & _ & Hfib & Hset & Hsq)%FractalMultiplier_init_table Hk.
  rewrite Hfib. unfold table. rewrite length_fmap, length_seq. intros Hn.
  destruct (compute_product_members self n k (S k) Hfib Hset Hsq ltac:(lia))
    as [-> ->].
  replace (first_position k) with k
    by (destruct k as [|[|k]]; [lia..|done]).
  rewrite square_sum_product. split; f_equal; lia.
Qed.

(** Among the members from 2 on, only neighbours are multiplied exactly. *)
Lemma compute_product_exact_iff (max_n : Z) (self : FractalMultiplier)
    (i j : nat) :
  FractalMultiplier_init max_n = Ok self ->
  (2 <= i <= j)%nat -> (j < length (fib self))%nat ->
  compute_product self (Fib i) (Fib j) = Ok (Fib i * Fib j) <-> j = S i.
Proof.
  intros (n & _ & Hfib & Hset & Hsq)%FractalMultiplier_init_table Hij.
  rewrite Hfib. unfold table. rewrite length_fmap, length_seq. intros Hn.
  destruct (compute_product_members self n i j Hfib Hset Hsq ltac:(lia))
    as [-> _].
  replace (first_position i) with i
    by (destruct i as [|[|i]]; [lia..|done]).
  rewrite square_sum_product. pose proof (Fib_pos i).
  split.
  - intros Hok.
    assert (Fib i * Fib (S i) = Fib i * Fib j) as Heq by congruence.
    apply Z.mul_cancel_l in Heq; [|lia].
    destruct (decide (j = S i)) as [|Hne]; [done|exfalso].
    destruct (decide (j = i)) as [->|Hne'].
    + pose proof (Fib_lt_S i ltac:(lia)). lia.
    + pose proof (Fib_lt (S i) j ltac:(lia)). lia.
  - by intros ->.
Qed.

(** On the neighbours 13 and 21 the sum of squares is the product 273. *)
Example compute_product_13_21 :
  (self ← FractalMultiplier_init 100; compute_product self 13 21) = Ok 273.
Proof. vm_compute. reflexivity. Qed.

(** C1, at a pair the code multiplies wrongly: with the default table of
    100 entries, [compute_product(2, 5)] is 1 + 1 + 4 = 6, not 10. *)
Theorem compute_product_2_5 :
  (self ← FractalMultiplier_init 100; compute_product self 2 5) = Ok 6
  /\ 6 <> 2 * 5.
Proof. split; [by vm_compute|lia]. Qed.

(** C8: when an operand is not in the table, [compute_product(a, b)]
    returns the ordinary product and raises nothing. *)
Theorem compute_product_fallback (self : FractalMultiplier) (a b : Z) :
  a ∉ fib_set self \/ b ∉ fib_set self ->
  compute_product self a b = Ok (a * b).
Proof. intros Hout. unfold compute_product. by rewrite decide_True. Qed.

Lemma compute_product_fallback_witness :
  exists self,
    FractalMultiplier_init 23 = Ok self
    /\ (4 ∉ fib_set self \/ 5 ∉ fib_set self)
    /\ compute_product self 4 5 = Ok (4 * 5).
Proof.
  eexists. split; [by vm_compute|].
  match goal with
  | |- (?P \/ ?Q) /\ _ =>
      assert P as Hout by (apply (bool_decide_unpack _); by vm_compute)
  end.
  split; [by left|].
  apply (compute_product_fallback _ 4 5). by left.
Defined.

(** C9: [compute_product(1, b)] is 1 for every table member [b]: the
    value 1 is found at position 0, and the summed prefix is the single
    square 1. *)
Theorem compute_product_one (max_n : Z) (self : FractalMultiplier) (b : Z) :
  FractalMultiplier_init max_n = Ok self ->
  b ∈ fib_set self ->
  index 1 (fib self) = Ok 0 /\ compute_product self 1 b = Ok 1.
Proof.
  intros Hinit Hb.
  apply (member_is_Fib _ _ _ Hinit) in Hb as (j & Hj & ->).
  apply FractalMultiplier_init_table in Hinit as (n & Hn & Hfib & Hset & Hsq).
  rewrite Hfib in Hj |- *. unfold table in Hj.
  rewrite length_fmap, length_seq in Hj. split.
  - apply (table_index n 0). lia.
  - destruct (compute_product_members self n 0 j Hfib Hset Hsq ltac:(lia))
      as [Hone _]. exact Hone.
Qed.

Lemma compute_product_one_witness :
  exists self,
    FractalMultiplier_init 23 = Ok self
    /\ 8 ∈ fib_set self
    /\ index 1 (fib self) = Ok 0 /\ compute_product self 1 8 = Ok 1.
Proof.
  eexists. split; [by vm_compute|].
  match goal with
  | |- ?P /\ _ =>
      assert P as Hin by (apply (bool_decide_unpack _); by vm_compute)
  end.
  split; [done|].
  apply (compute_product_one 23); [by vm_compute|done].
Defined.

(** ** Floats *)

(** With a zero standard deviation a finite draw does not move the mean:
    [1 + 0 * z] is [1]. *)
Lemma noise_free_draw (z : float) :
  is_finite z = true -> (1 + 0 * z)%float = 1%float.
Proof.
  intros Hfin. apply Prim2SF_inj. rewrite FloatAxioms.add_spec, FloatAxioms.mul_spec.
  unfold is_finite, is_nan, is_infinity in Hfin.
  rewrite !FloatAxioms.eqb_spec, FloatAxioms.abs_spec in Hfin.
  destruct (Prim2SF z) as [[]|[]| |[] m e];
    try (vm_compute in Hfin; discriminate Hfin); reflexivity.
Qed.

(** ** The simulator *)

Lemma cell_loop (bc : float) (l : list Z) (d d' : gmap Z float) :
  for_in (cell_entry bc) l d = Ok d' ->
  (forall x, is_Some (d !! x) -> is_Some (d' !! x))
  /\ (forall x, x ∈ l ->
        is_Some (d' !! x) /\ Z.abs (x ^ 2) < 2 ^ 1024 - 2 ^ 970).
Proof.
  revert d. induction l as [|y l IH]; intros d; simpl.
  - intros [= <-]. split; [done|]. by intros x ?%elem_of_nil.
  - destruct (cell_entry bc y d) as [d1|] eqn:Hstep; simpl; [|done].
    unfold cell_entry, Np.float_of_int in Hstep.
    destruct (decide (Z.abs (y ^ 2) < 2 ^ 1024 - 2 ^ 970)) as [Hy|];
      simpl in Hstep; [|done].
    injection Hstep as <-. intros [Hkeep Hnew]%IH. split.
    + intros x Hx. apply Hkeep. rewrite lookup_insert_is_Some'. by right.
    + intros x [->|Hx]%elem_of_cons; [|by apply Hnew].
      split; [|done]. apply Hkeep. rewrite lookup_insert_is_Some'. by left.
Qed.

Lemma init_well_built (max_fib : Z) (self : AnalogComputingSimulator) :
  AnalogComputingSimulator_init max_fib = Ok self -> well_built self.
Proof.
  unfold AnalogComputingSimulator_init.
  destruct (FractalMultiplier_init max_fib) as [m|] eqn:Hfm; [|done]. simpl.
  destruct (for_in _ (fib m) ∅) as [d|] eqn:Hcells; [|done]. simpl.
  intros [= <-]. split; [by exists max_fib|]. simpl.
  by apply (cell_loop _ _ _ _ Hcells).
Qed.

Lemma set_noise_std_well_built (self : AnalogComputingSimulator) (s : float) :
  well_built self -> well_built (set_noise_std self s).
Proof. done. Qed.

(** The guard passed, the position of the smaller operand is found and the
    active cells are table entries. *)
Lemma smaller_index (self : AnalogComputingSimulator) (a b : Z) :
  well_built self ->
  a ∈ fib_set (fm self) -> b ∈ fib_set (fm self) ->
  exists idx : nat,
    index (Z.min a b) (fib (fm self)) = Ok (Z.of_nat idx)
    /\ (idx < length (fib (fm self)))%nat
    /\ 1 <= a /\ 1 <= b.
Proof.
  intros [[max_fib Hinit] _] Ha Hb.
  apply (member_is_Fib _ _ _ Hinit) in Ha as (i & Hi & ->).
  apply (member_is_Fib _ _ _ Hinit) in Hb as (j & Hj & ->).
  apply FractalMultiplier_init_table in Hinit as (n & _ & Hfib & _).
  rewrite Hfib in Hi, Hj |- *. unfold table in Hi, Hj.
  rewrite length_fmap, length_seq in Hi, Hj.
  assert (length (table n) = n) as ->
      by (unfold table; by rewrite length_fmap, length_seq).
  assert (forall k, first_position k <= k)%nat as Hfp
      by (intros [|[|k]]; simpl; lia).
  pose proof (Fib_pos i). pose proof (Fib_pos j).
  destruct (Z.min_spec (Fib i) (Fib j)) as [[_ ->]|[_ ->]].
  - exists (first_position i). rewrite table_index by done.
    specialize (Hfp i). repeat split; (done || lia).
  - exists (first_position j). rewrite table_index by done.
    specialize (Hfp j). repeat split; (done || lia).
Qed.

Lemma slice_to_elem {A} (l : list A) (n : Z) (x : A) :
  x ∈ slice_to l n -> x ∈ l.
Proof. unfold slice_to. apply subseteq_take. Qed.

Lemma product_converts (self : AnalogComputingSimulator) (a b : Z) :
  well_built self ->
  a ∈ fib_set (fm self) -> b ∈ fib_set (fm self) ->
  exists ab, Np.float_of_int (a * b) = Ok ab.
Proof.
  intros Hwb Ha Hb.
  destruct (smaller_index self a b Hwb Ha Hb) as (_ & _ & _ & Ha1 & Hb1).
  destruct Hwb as [[max_fib Hinit] Hcells].
  assert (a ∈ fib (fm self) /\ b ∈ fib (fm self)) as [Ha' Hb'].
  { apply FractalMultiplier_init_table in Hinit as (n & _ & Hfib & Hset & _).
    rewrite Hset, !elem_of_list_to_set, <- Hfib in Ha, Hb. done. }
  destruct (Hcells a Ha') as [_ Hsqa]. destruct (Hcells b Hb') as [_ Hsqb].
  unfold Np.float_of_int. rewrite decide_True; [by eexists|]. nia.
Qed.

Lemma noisy_loop_total (self : AnalogComputingSimulator) (l : list Z) :
  get_sign (noise_std self) = false ->
  (forall x, x ∈ l -> is_Some (cells self !! x)) ->
  forall st, exists st', for_in (noisy_conductance self) l st = Ok st'.
Proof.
  intros Hsign Hkeys st.
  destruct (for_in_total (noisy_conductance self) (fun _ => True) l) with st
    as (st' & Hst' & _); [|done|by exists st'].
  intros x [acc rs] Hx _. destruct (Hkeys x Hx) as [c Hc].
  unfold noisy_conductance, dict_get, Np.random_normal.
  rewrite Hc, Hsign. simpl. by eexists.
Qed.

Lemma simulate_multiplication_members (np : Np.lib)
    (self : AnalogComputingSimulator) (a b : Z) (voltage : float)
    (rs : Np.RandomState) :
  well_built self ->
  get_sign (noise_std self) = false ->
  a ∈ fib_set (fm self) -> b ∈ fib_set (fm self) ->
  exists r rs',
    simulate_multiplication np self a b voltage rs = Ok (r, rs')
    /\ true_product r = a * b.
Proof.
  intros Hwb Hsign Ha Hb.
  destruct (smaller_index self a b Hwb Ha Hb) as (idx & Hidx & _).
  destruct (product_converts self a b Hwb Ha Hb) as [ab Hab].
  destruct (noisy_loop_total self
              (slice_to (fib (fm self)) (Z.of_nat idx + 1)) Hsign
              ltac:(intros x Hx%slice_to_elem; by apply Hwb)
              ([], rs))
    as [[cs rs'] Hloop].
  unfold simulate_multiplication.
  rewrite decide_False by tauto. rewrite Hidx. simpl.
  rewrite Hloop. simpl. rewrite Hab. simpl. by eexists _, _.
Qed.

Lemma remaining_total (self : AnalogComputingSimulator) (active : gset Z) :
  (forall x, x ∈ active -> is_Some (cells self !! x)) ->
  exists rc, remaining self active = Ok rc.
Proof.
  intros Hkeys. unfold remaining.
  destruct (for_in_total
              (fun c acc => g ← dict_get (cells self) c; Ok (acc + g)%float)
              (fun _ => True) (elements active)) with 0%float
    as (rc & Hrc & _); [|done|by exists rc].
  intros c acc Hc%elem_of_elements _. destruct (Hkeys c Hc) as [g Hg].
  unfold dict_get. rewrite Hg. simpl. by eexists.
Qed.

Lemma deactivate_splits (self : AnalogComputingSimulator) (initial : gset Z)
    (entry : Z * (Z * Z)) (st : gset Z * list DeactivationStep) :
  (forall x, x ∈ initial -> is_Some (cells self !! x)) ->
  splits initial st ->
  exists st', deactivate self entry st = Ok st' /\ splits initial st'.
Proof.
  intros Hkeys (Hsub & Hnodup & Hout & Hcover).
  destruct entry as [i [a_val b_val]], st as [active removed_steps].
  simpl in *. unfold deactivate.
  destruct (decide (b_val ∈ active)) as [Hin|Hnin].
  - destruct (remaining_total self (active ∖ {[b_val]})) as [rc ->].
    { intros x [Hx _]%elem_of_difference. by apply Hkeys, Hsub. }
    simpl. eexists. split; [done|]. unfold splits. simpl.
    rewrite fmap_app. simpl.
    split; [intros x [Hx _]%elem_of_difference; by apply Hsub|].
    split; [|split].
    + apply NoDup_app. split; [done|]. split; [|apply NoDup_singleton].
      intros v Hv Hv'%list_elem_of_singleton. subst v.
      by destruct (Hout _ Hv).
    + intros v [Hv|Hv%list_elem_of_singleton]%elem_of_app.
      * destruct (Hout _ Hv) as [Hini Hact]. split; [done|].
        by intros [? _]%elem_of_difference.
      * subst v. split; [by apply Hsub|].
        intros [_ Hn]%elem_of_difference. apply Hn. by apply elem_of_singleton.
    + intros v Hv. rewrite elem_of_app, list_elem_of_singleton.
      destruct (decide (v = b_val)) as [->|Hne]; [right; by right|].
      destruct (Hcover v Hv) as [Hact|Hrem]; [left|right; by left].
      apply elem_of_difference. split; [done|].
      by intros ?%elem_of_singleton.
  - eexists. split; [done|].
    exact (conj Hsub (conj Hnodup (conj Hout Hcover))).
Qed.

Lemma simulate_gcd_computation_members (self : AnalogComputingSimulator)
    (a b : Z) :
  well_built self ->
  a ∈ fib_set (fm self) -> b ∈ fib_set (fm self) ->
  exists r self' idx,
    simulate_gcd_computation self a b = Ok (r, self')
    /\ index (Z.min a b) (fib (fm self)) = Ok idx
    /\ gcd_value r = (compute_gcd (gcd self) a b).1.1
    /\ gcd self' = (compute_gcd (gcd self) a b).2
    /\ steps r = Z.of_nat (length (cells_deactivated r))
    /\ exists active,
         final_active_cells r = elements active
         /\ splits (list_to_set (slice_to (fib (fm self)) (idx + 1)))
                   (active, cells_deactivated r).
Proof.
  intros Hwb Ha Hb.
  destruct (smaller_index self a b Hwb Ha Hb) as (idx & Hidx & _).
  unfold simulate_gcd_computation.
  rewrite decide_False by tauto. rewrite Hidx. simpl.
  destruct (compute_gcd (gcd self) a b) as [[g ops] tracer]. simpl.
  set (initial := list_to_set (slice_to (fib (fm self)) (Z.of_nat idx + 1))
                  : gset Z).
  set (self1 := {| fm := fm self; gcd := tracer;
                   base_conductance := base_conductance self;
                   cells := cells self; noise_std := noise_std self |}).
  assert (forall x, x ∈ initial -> is_Some (cells self1 !! x)) as Hkeys.
  { intros x Hx%elem_of_list_to_set%slice_to_elem. by apply Hwb. }
  destruct (for_in_total (deactivate self1) (splits initial)
              (enumerate (all_but_last tracer.(path)))) with (initial, @nil DeactivationStep)
    as ([active removed_steps] & -> & Hsplit).
  - intros entry st _. by apply deactivate_splits.
  - unfold splits. simpl. split; [done|]. split; [apply NoDup_nil_2|].
    split; [by intros v ?%elem_of_nil|]. intros v Hv. by left.
  - simpl. eexists _, _, _. repeat split. by exists active.
Qed.

(** With a zero standard deviation and finite draws every noisy
    conductance is the nominal one times 1. *)
Lemma noise_free_conductance (self : AnalogComputingSimulator)
    (size : Z) (acc : list float) (rs : Np.RandomState) :
  noise_std self = 0%float ->
  is_finite (rs 0%nat) = true ->
  noisy_conductance self size (acc, rs)
  = (c ← dict_get (cells self) size;
     Ok (acc ++ [(c * 1)%float], fun i => rs (S i))).
Proof.
  intros Hstd Hfin. unfold noisy_conductance, Np.random_normal.
  rewrite Hstd, (noise_free_draw (rs 0%nat)) by done.
  change (get_sign 0) with false. cbv iota.
  by destruct (dict_get (cells self) size).
Qed.

Lemma noise_free_conductances (self : AnalogComputingSimulator)
    (l : list Z) (acc : list float) (rs : Np.RandomState) :
  noise_std self = 0%float ->
  (forall i, is_finite (rs i) = true) ->
  for_in (noisy_conductance self) l (acc, rs)
  = (cs ← for_in (fun size acc => c ← dict_get (cells self) size;
                                  Ok (acc ++ [(c * 1)%float])) l acc;
     Ok (cs, fun i => rs (length l + i)%nat)).
Proof.
  intros Hstd. revert acc rs.
  induction l as [|x l IH]; intros acc rs Hfin; [done|].
  rewrite !for_in_cons, noise_free_conductance by done.
  destruct (dict_get (cells self) x) as [c|e]; [|done]. simpl.
  by rewrite IH.
Qed.

(** So the result does not depend on the draws. *)
Lemma noise_free_any_draws (np : Np.lib) (self : AnalogComputingSimulator)
    (a b : Z) (voltage : float) (rs1 rs2 : Np.RandomState) :
  noise_std self = 0%float ->
  (forall i, is_finite (rs1 i) = true) ->
  (forall i, is_finite (rs2 i) = true) ->
  match simulate_multiplication np self a b voltage rs1,
        simulate_multiplication np self a b voltage rs2 with
  | Ok (r1, _), Ok (r2, _) => r1 = r2
  | Raise e1, Raise e2 => e1 = e2
  | _, _ => False
  end.
Proof.
  intros Hstd Hfin1 Hfin2. unfold simulate_multiplication.
  destruct (decide _); [done|].
  destruct (index _ _) as [idx|e]; [|done]. simpl.
  rewrite !noise_free_conductances by done.
  destruct (for_in _ (slice_to _ _) []) as [cs|e]; [|done]. simpl.
  destruct (Np.float_of_int (a * b)) as [ab|e]; [|done]. done.
Qed.

(** Both operands enter through [min(a, b)] and [a * b] only. *)
Lemma simulate_multiplication_comm (np : Np.lib)
    (self : AnalogComputingSimulator) (a b : Z) (voltage : float)
    (rs : Np.RandomState) :
  simulate_multiplication np self a b voltage rs
  = simulate_multiplication np self b a voltage rs.
Proof.
  unfold simulate_multiplication.
  rewrite (Z.min_comm b a), (Z.mul_comm b a).
  destruct (decide (a ∉ fib_set (fm self) \/ b ∉ fib_set (fm self))),
           (decide (b ∉ fib_set (fm self) \/ a ∉ fib_set (fm self)));
    tauto || done.
Qed.

(** C5: both simulations raise exactly when an operand is missing from the
    table, and then the error is the [ValueError] of the guard, never a
    product; on two members both return.  This holds at the noise level
    0.05 that [__init__] sets and at every other one that is not negative
    (its sign bit is clear), at every voltage and random source; a negative
    noise level is refused by [np.random.normal]. *)
Theorem invalid_input_iff (np : Np.lib) (max_fib : Z)
    (self : AnalogComputingSimulator) (s voltage : float) (a b : Z)
    (rs : Np.RandomState) :
  AnalogComputingSimulator_init max_fib = Ok self ->
  get_sign s = false ->
  let sim := set_noise_std self s in
  let invalid := a ∉ fib_set (fm sim) \/ b ∉ fib_set (fm sim) in
  (raises (simulate_multiplication np sim a b voltage rs) <-> invalid)
  /\ (raises (simulate_gcd_computation sim a b) <-> invalid)
  /\ (invalid ->
      simulate_multiplication np sim a b voltage rs
        = Raise (ValueError "Both numbers must be Fibonacci")
      /\ simulate_gcd_computation sim a b
        = Raise (ValueError "Both numbers must be Fibonacci"))
  /\ (~ invalid ->
      (exists r rs', simulate_multiplication np sim a b voltage rs = Ok (r, rs')
                     /\ true_product r = a * b)
      /\ (exists r sim', simulate_gcd_computation sim a b = Ok (r, sim'))).
Proof.
  intros Hwb%init_well_built%(set_noise_std_well_built _ s) Hsign
         sim invalid.
  assert (invalid ->
          simulate_multiplication np sim a b voltage rs
            = Raise (ValueError "Both numbers must be Fibonacci")
          /\ simulate_gcd_computation sim a b
            = Raise (ValueError "Both numbers must be Fibonacci")) as Hbad.
  { intros Hinv. unfold simulate_multiplication, simulate_gcd_computation.
    by rewrite !decide_True. }
  assert (~ invalid ->
          (exists r rs',
              simulate_multiplication np sim a b voltage rs = Ok (r, rs')
              /\ true_product r = a * b)
          /\ (exists r sim', simulate_gcd_computation sim a b = Ok (r, sim')))
    as Hgood.
  { intros Hval.
    assert (a ∈ fib_set (fm sim) /\ b ∈ fib_set (fm sim)) as [Ha Hb].
    { unfold invalid in Hval.
      destruct (decide (a ∈ fib_set (fm sim))),
               (decide (b ∈ fib_set (fm sim))); tauto. }
    split; [by apply simulate_multiplication_members|].
    destruct (simulate_gcd_computation_members sim a b Hwb Ha Hb)
      as (r & sim' & _ & Hr & _). by exists r, sim'. }
  assert (invalid \/ ~ invalid) as Hdec.
  { unfold invalid.
    destruct (decide (a ∈ fib_set (fm sim))),
             (decide (b ∈ fib_set (fm sim))); tauto. }
  split; [|split; [|split; [exact Hbad|exact Hgood]]]; split.
  - intros [e He]. destruct Hdec as [|Hval]; [done|].
    destruct (Hgood Hval) as [(r & rs' & Hr & _) _]. congruence.
  - intros Hinv. destruct (Hbad Hinv) as [-> _]. by eexists.
  - intros [e He]. destruct Hdec as [|Hval]; [done|].
    destruct (Hgood Hval) as [_ (r & sim' & Hr)]. congruence.
  - intros Hinv. destruct (Hbad Hinv) as [_ ->]. by eexists.
Qed.

(** C10: on two table members [simulate_gcd_computation] returns; the
    deactivated values are pairwise distinct and come from the initial
    active set, the table prefix up to the first position of the smaller
    operand; and the remaining active cells together with the deactivated
    values are that set, each of its values on one side only. *)
Theorem deactivation_partition (max_fib : Z)
    (self : AnalogComputingSimulator) (a b : Z) :
  AnalogComputingSimulator_init max_fib = Ok self ->
  a ∈ fib_set (fm self) -> b ∈ fib_set (fm self) ->
  exists r self' idx,
    simulate_gcd_computation self a b = Ok (r, self')
    /\ index (Z.min a b) (fib (fm self)) = Ok idx
    /\ let initial : gset Z :=
         list_to_set (slice_to (fib (fm self)) (idx + 1)) in
       let removed := deactivated <$> cells_deactivated r in
       NoDup removed
       /\ (forall v, v ∈ removed -> v ∈ initial)
       /\ NoDup (final_active_cells r)
       /\ (forall v, v ∈ final_active_cells r -> v ∉ removed)
       /\ (forall v, v ∈ initial <-> v ∈ final_active_cells r \/ v ∈ removed).
Proof.
  intros Hwb%init_well_built Ha Hb.
  destruct (simulate_gcd_computation_members self a b Hwb Ha Hb)
    as (r & self' & idx & Hr & Hidx & _ & _ & _ & active & Hfinal & Hsplit).
  exists r, self', idx. split; [done|]. split; [done|]. simpl.
  destruct Hsplit as (Hsub & Hnodup & Hout & Hcover). simpl in *.
  rewrite Hfinal. split; [done|]. split; [intros v Hv; by apply Hout|].
  split; [apply NoDup_elements|]. split.
  - intros v Hv%elem_of_elements Hrem. by destruct (Hout v Hrem).
  - intros v. rewrite elem_of_elements. split; [apply Hcover|].
    intros [Hact|Hrem]; [by apply Hsub|by apply Hout].
Qed.

Lemma invalid_input_iff_witness :
  exists self,
    AnalogComputingSimulator_init 23 = Ok self
    /\ get_sign 0.05 = false
    /\ let np := Np.mkLib (fun x => x) (fun _ => 0%float) in
       let rs : Np.RandomState := fun _ => 0.5%float in
       let sim := set_noise_std self 0.05 in
       let invalid := 4 ∉ fib_set (fm sim) \/ 8 ∉ fib_set (fm sim) in
       (raises (simulate_multiplication np sim 4 8 1 rs) <-> invalid)
       /\ (raises (simulate_gcd_computation sim 4 8) <-> invalid)
       /\ (invalid ->
           simulate_multiplication np sim 4 8 1 rs
             = Raise (ValueError "Both numbers must be Fibonacci")
           /\ simulate_gcd_computation sim 4 8
             = Raise (ValueError "Both numbers must be Fibonacci"))
       /\ (~ invalid ->
           (exists r rs', simulate_multiplication np sim 4 8 1 rs = Ok (r, rs')
                          /\ true_product r = 4 * 8)
           /\ (exists r sim', simulate_gcd_computation sim 4 8 = Ok (r, sim'))).
Proof.
  eexists. split; [vm_compute; reflexivity|]. split; [reflexivity|].
  apply (invalid_input_iff _ 23); [vm_compute; reflexivity|reflexivity].
Defined.

(** [simulate_gcd_computation(34, 55)]: the gcd is 1 and eight cells are
    deactivated, the whole active set. *)
Example simulate_gcd_34_55 :
  (self ← AnalogComputingSimulator_init 23;
   out ← simulate_gcd_computation self 34 55;
   Ok (gcd_value out.1, steps out.1,
       deactivated <$> cells_deactivated out.1, final_active_cells out.1))
  = Ok (1, 8, [34; 21; 13; 8; 5; 3; 2; 1], []).
Proof. vm_compute. reflexivity. Qed.

Lemma deactivation_partition_witness :
  exists self,
    AnalogComputingSimulator_init 23 = Ok self
    /\ 34 ∈ fib_set (fm self) /\ 55 ∈ fib_set (fm self)
    /\ exists r self' idx,
         simulate_gcd_computation self 34 55 = Ok (r, self')
         /\ index (Z.min 34 55) (fib (fm self)) = Ok idx
         /\ let initial : gset Z :=
              list_to_set (slice_to (fib (fm self)) (idx + 1)) in
            let removed := deactivated <$> cells_deactivated r in
            NoDup removed
            /\ (forall v, v ∈ removed -> v ∈ initial)
            /\ NoDup (final_active_cells r)
            /\ (forall v, v ∈ final_active_cells r -> v ∉ removed)
            /\ (forall v,
                  v ∈ initial <-> v ∈ final_active_cells r \/ v ∈ removed).
Proof.
  eexists. split; [vm_compute; reflexivity|].
  match goal with
  | |- ?P /\ ?Q /\ _ =>
      assert P as Ha by (apply (bool_decide_unpack _); vm_compute; reflexivity);
      assert Q as Hb by (apply (bool_decide_unpack _); vm_compute; reflexivity)
  end.
  split; [done|]. split; [done|].
  apply (deactivation_partition 23); [vm_compute; reflexivity|done..].
Defined.

(** C3, as stated, fails on the neighbours 3 and 5: with the noise
    standard deviation set to 0 and voltage 1.0 the measured product is
    15.000000000000002, which is not the true product 15, and the error
    percent is not 0. *)
Lemma noise_free_3_5_inexact :
  (self ← AnalogComputingSimulator_init 23;
   out ← simulate_multiplication
           (Np.mkLib (fun x => x) (fun _ => 0%float))
           (set_noise_std self 0) 3 5 1 (fun _ => 0.5%float);
   Ok (true_product out.1,
       (measured_product out.1 =? 15)%float,
       (error_percent out.1 =? 0)%float))
  = Ok (15, false, false).
Proof. vm_compute. reflexivity. Qed.

(** One pair of the finite check below: the run on any finite draws is
    the run on the zero stream, which is evaluated. *)
Ltac noise_free_run Hfin :=
  lazymatch goal with
  | |- exists r rs', simulate_multiplication ?np ?sim ?a ?b _ ?rs = _ /\ _ =>
      let Hrun := fresh "Hrun" in
      pose proof (noise_free_any_draws np sim a b 1%float rs (fun _ => 0%float)
                    eq_refl Hfin (fun _ => eq_refl)) as Hrun;
      destruct (simulate_multiplication np sim a b 1 rs) as [[r rs']|e];
      [ exists r, rs'; repeat (split; [reflexivity|]);
        vm_compute in Hrun; rewrite Hrun; repeat split; vm_compute; reflexivity
      | vm_compute in Hrun; destruct Hrun ]
  end.

(** C3, amended: on the default simulator with the noise standard
    deviation set to 0, finite draws and voltage 1.0,
    [simulate_multiplication(8, 13)] returns the true product 104, the
    measured product 104.0 and the error percent 0.0; and for every two
    neighbours [a], [b] of the table from (2, 3) on, in either order, it
    returns the true product [a * b] and a measured product within
    rounding of it, the error percent being at most 2e-14. *)
Theorem noise_free_multiplication (np : Np.lib)
    (self : AnalogComputingSimulator) (rs : Np.RandomState) :
  AnalogComputingSimulator_init 23 = Ok self ->
  (forall i, is_finite (rs i) = true) ->
  let sim := set_noise_std self 0 in
  (exists r rs',
      simulate_multiplication np sim 8 13 1 rs = Ok (r, rs')
      /\ true_product r = 104
      /\ measured_product r = 104%float
      /\ error_percent r = 0%float)
  /\ forall (k : nat) (a b : Z),
       (2 <= k)%nat ->
       fib (fm self) !! k = Some a -> fib (fm self) !! S k = Some b ->
       exists r rs',
         simulate_multiplication np sim a b 1 rs = Ok (r, rs')
         /\ simulate_multiplication np sim b a 1 rs = Ok (r, rs')
         /\ true_product r = a * b
         /\ (error_percent r <=? 2e-14)%float = true.
Proof.
  intros Hinit Hfin. vm_compute in Hinit. injection Hinit as <-.
  intros sim. split.
  - noise_free_run Hfin.
  - intros k a b Hk Ha Hb. rewrite (simulate_multiplication_comm np sim b a).
    do 2 (destruct k as [|k]; [lia|]).
    do 20 (destruct k as [|k];
           [ injection Ha as <-; injection Hb as <-; noise_free_run Hfin | ]).
    discriminate Hb.
Qed.

Lemma noise_free_multiplication_witness :
  exists self,
    AnalogComputingSimulator_init 23 = Ok self
    /\ (forall i : nat, is_finite ((fun _ => 0.5%float) i) = true)
    /\ let np := Np.mkLib (fun x => x) (fun _ => 0%float) in
       let rs : Np.RandomState := fun _ => 0.5%float in
       let sim := set_noise_std self 0 in
       (exists r rs',
           simulate_multiplication np sim 8 13 1 rs = Ok (r, rs')
           /\ true_product r = 104
           /\ measured_product r = 104%float
           /\ error_percent r = 0%float)
       /\ forall (k : nat) (a b : Z),
            (2 <= k)%nat ->
            fib (fm self) !! k = Some a -> fib (fm self) !! S k = Some b ->
            exists r rs',
              simulate_multiplication np sim a b 1 rs = Ok (r, rs')
              /\ simulate_multiplication np sim b a 1 rs = Ok (r, rs')
              /\ true_product r = a * b
              /\ (error_percent r <=? 2e-14)%float = true.
Proof.
  eexists. split; [vm_compute; reflexivity|].
  split; [intros i; reflexivity|].
  apply (noise_free_multiplication _ _ (fun _ => 0.5%float));
    [vm_compute; reflexivity|intros i; reflexivity].
Defined.

(** * Further properties of the code *)

(** ** The Euclidean tracer *)

Lemma euclid_trace_unique a b ops1 pth1 g1 ops2 pth2 g2 :
  euclid_trace a b ops1 pth1 g1 -> euclid_trace a b ops2 pth2 g2 ->
  ops1 = ops2 /\ pth1 = pth2 /\ g1 = g2.
Proof.
  intros Htr. revert ops2 pth2 g2.
  induction Htr as [a|a b ops pth g Hb _ IH]; intros ops2 pth2 g2 Htr2;
    inversion Htr2; subst; try done.
  match goal with
  | H : euclid_trace b (a mod b) _ _ _ |- _ =>
      destruct (IH _ _ _ H) as (-> & -> & ->)
  end. done.
Qed.

Lemma compute_gcd_of_trace (self : EuclideanGCD) a b ops pth g :
  euclid_trace a b ops pth g ->
  compute_gcd self a b
  = ((g, ops), {| path := pth ++ [(g, 0)]; operations := ops |}).
Proof.
  intros Htr.
  destruct (compute_gcd_trace self a b) as (ops' & pth' & g' & -> & Htr').
  by destruct (euclid_trace_unique _ _ _ _ _ _ _ _ Htr Htr') as (-> & -> & ->).
Qed.

Lemma euclid_trace_steps a b ops pth g :
  euclid_trace a b ops pth g ->
  (pth ++ [(g, 0)]) !! 0%nat = Some (a, b)
  /\ forall (i : nat) q r c,
       ops !! i = Some (q, r, c) ->
       exists x y,
         (pth ++ [(g, 0)]) !! i = Some (x, y)
         /\ y <> 0 /\ q = x / y /\ r = x mod y /\ c = 1
         /\ (pth ++ [(g, 0)]) !! S i = Some (y, r).
Proof.
  induction 1 as [a|a b ops pth g Hb _ [IHhead IHsteps]]; (split; [done|]).
  - by intros i q r c ?.
  - intros [|i] q r c Hop; simpl in *.
    + injection Hop as <- <- <-. by exists a, b.
    + by apply IHsteps.
Qed.

(** After [compute_gcd(a, b)], on any integers, the path starts at
    [(a, b)], and every step [i] is the division of the path entry [i]:
    the divisor is not 0, the step is (quotient, remainder, 1), and the
    next path entry is (divisor, remainder). *)
Theorem trace_is_division_chain (self : EuclideanGCD) (a b : Z) :
  let tracer := (compute_gcd self a b).2 in
  path tracer !! 0%nat = Some (a, b)
  /\ forall (i : nat) q r c,
       operations tracer !! i = Some (q, r, c) ->
       exists x y,
         path tracer !! i = Some (x, y)
         /\ y <> 0 /\ q = x / y /\ r = x mod y /\ c = 1
         /\ path tracer !! S i = Some (y, r).
Proof.
  destruct (compute_gcd_trace self a b) as (ops & pth & g & -> & Htr). simpl.
  by apply euclid_trace_steps.
Qed.

Lemma euclid_trace_sign a b ops pth g :
  euclid_trace a b ops pth g ->
  (0 < b -> g = Z.gcd a b) /\ (b < 0 -> g = - Z.gcd a b) /\ (b = 0 -> g = a).
Proof.
  induction 1 as [a|a b ops pth g Hb _ (IHpos & IHneg & IHzero)];
    [repeat split; lia|].
  assert (Z.gcd b (a mod b) = Z.gcd a b) as Hgcd
      by (rewrite (Z.gcd_comm b), Z.gcd_mod by done; apply Z.gcd_comm).
  pose proof (Z.mod_bound_or a b Hb) as Hmod.
  split; [|split; [|done]]; intros Hsign.
  - destruct (decide (a mod b = 0)) as [Hz|Hnz].
    + rewrite (IHzero Hz), <- Hgcd, Hz, Z.gcd_0_r. lia.
    + rewrite <- Hgcd. apply IHpos. lia.
  - destruct (decide (a mod b = 0)) as [Hz|Hnz].
    + rewrite (IHzero Hz), <- Hgcd, Hz, Z.gcd_0_r. lia.
    + rewrite <- Hgcd. apply IHneg. lia.
Qed.

(** On any integers the value [compute_gcd(a, b)] returns is the greatest
    common divisor up to sign: its absolute value is [gcd(a, b)], it is
    not negative for a positive [b], not positive for a negative [b], and
    [a] itself for [b = 0]. *)
Theorem compute_gcd_sign (self : EuclideanGCD) (a b : Z) :
  let g := (compute_gcd self a b).1.1 in
  Z.abs g = Z.gcd a b
  /\ (0 < b -> 0 <= g) /\ (b < 0 -> g <= 0) /\ (b = 0 -> g = a).
Proof.
  destruct (compute_gcd_trace self a b) as (ops & pth & g & -> & Htr). simpl.
  destruct (euclid_trace_sign _ _ _ _ _ Htr) as (Hpos & Hneg & Hzero).
  pose proof (Z.gcd_nonneg a b).
  split; [|split; [|split]]; [|intros ?%Hpos; lia|intros ?%Hneg; lia|done].
  destruct (Z.lt_trichotomy b 0) as [Hb|[Hb|Hb]].
  - rewrite (Hneg Hb). lia.
  - rewrite (Hzero Hb), Hb, Z.gcd_0_r. done.
  - rewrite (Hpos Hb). lia.
Qed.

(** The tracer does not order its operands: for [0 <= a < b] the first
    step has quotient 0 and only swaps them, and the rest of the trace is
    that of [compute_gcd(b, a)]. *)
Theorem compute_gcd_swaps (self : EuclideanGCD) (a b : Z) :
  0 <= a < b ->
  compute_gcd self a b
  = let '((g, ops), tracer) := compute_gcd self b a in
    ((g, (0, a, 1) :: ops),
     {| path := (a, b) :: path tracer; operations := (0, a, 1) :: ops |}).
Proof.
  intros Hab.
  destruct (compute_gcd_trace self b a) as (ops & pth & g & -> & Htr).
  rewrite (compute_gcd_of_trace self a b ((0, a, 1) :: ops)
             ((a, b) :: pth) g); [done|].
  assert (euclid_trace b (a mod b) ops pth g) as Htr'
      by (by rewrite Z.mod_small).
  pose proof (trace_divide a b ops pth g ltac:(lia) Htr') as Hstep.
  by rewrite Z.div_small, Z.mod_small in Hstep.
Qed.

Lemma compute_gcd_swaps_witness :
  compute_gcd EuclideanGCD_init 13 21
  = let '((g, ops), tracer) := compute_gcd EuclideanGCD_init 21 13 in
    ((g, (0, 13, 1) :: ops),
     {| path := (13, 21) :: path tracer; operations := (0, 13, 1) :: ops |}).
Proof. apply (compute_gcd_swaps EuclideanGCD_init 13 21). lia. Defined.

Lemma euclid_trace_lame a b ops pth g :
  euclid_trace a b ops pth g -> 0 < b ->
  Fib (length ops) <= b /\ (b < a -> Fib (S (length ops)) <= a).
Proof.
  induction 1 as [a|a b ops pth g Hb Htr IH]; [lia|]. intros Hpos.
  pose proof (Z.mod_pos_bound a b Hpos) as Hmod.
  destruct (decide (a mod b = 0)) as [Hz|Hnz].
  - rewrite Hz in Htr. inversion Htr; subst; [|done]. simpl. lia.
  - destruct IH as [IHr IHb]; [lia|]. specialize (IHb ltac:(lia)).
    split; [done|]. intros Hlt.
    change (length (_ :: ops)) with (S (length ops)). rewrite Fib_SS.
    assert (1 <= a / b) by (apply Z.div_le_lower_bound; lia).
    pose proof (Z.div_mod a b Hb). nia.
Qed.

(** Lamé's bound: when [compute_gcd(a, b)] with a positive [b] takes [n]
    steps, [b] is at least the entry at position [n] of a generated table
    (1, 1, 2, 3, 5, ... counted from 0): no smaller divisor needs that many
    steps. *)
Theorem compute_gcd_steps_bound (self : EuclideanGCD) (a b : Z)
    (n : Z) (fib : list Z) (x : Z) :
  0 < b ->
  _generate_fibonacci n = Ok fib ->
  fib !! length (compute_gcd self a b).1.2 = Some x ->
  x <= b.
Proof.
  intros Hb. rewrite generate_fibonacci_table. intros [= <-] Hx.
  pose proof (lookup_lt_Some _ _ _ Hx) as Hlt.
  unfold table in Hlt. rewrite length_fmap, length_seq in Hlt.
  rewrite table_lookup in Hx by done. injection Hx as <-.
  destruct (compute_gcd_trace self a b) as (ops & pth & g & -> & Htr). simpl.
  by apply (euclid_trace_lame _ _ _ _ _ Htr).
Qed.

Lemma compute_gcd_steps_bound_witness :
  exists fib,
    _generate_fibonacci 23 = Ok fib
    /\ 0 < 13
    /\ fib !! length (compute_gcd EuclideanGCD_init 21 13).1.2 = Some 13
    /\ 13 <= 13.
Proof.
  eexists. split; [vm_compute; reflexivity|].
  split; [lia|]. split; [reflexivity|].
  eapply (compute_gcd_steps_bound EuclideanGCD_init 21 13 23);
    [lia|vm_compute; reflexivity|reflexivity].
Defined.

Lemma euclid_trace_expand_any a b ops pth g :
  euclid_trace a b ops pth g ->
  length (expand ops pth) = sum_list ((fun op => Z.to_nat op.1.1) <$> ops)
  /\ forall x, x ∈ expand ops pth -> x <> 0 /\ exists y, (y, x) ∈ pth.
Proof.
  induction 1 as [a|a b ops pth g Hb _ [IHlen IHin]].
  - split; [done|]. by intros x ?%elem_of_nil.
  - rewrite expand_cons. split.
    + rewrite length_app, length_replicate, IHlen. done.
    + intros x [[-> _]%elem_of_replicate|Hx]%elem_of_app.
      * split; [done|]. exists a. left.
      * destruct (IHin x Hx) as [Hnz [y Hy]]. split; [done|].
        exists y. by right.
Qed.

(** After [compute_gcd(a, b)] on any integers, negative ones included,
    [get_subtraction_sequence()] raises nothing: it returns a sequence with
    one element per unit of every positive quotient (a negative quotient
    adds none), and each element is a non-zero divisor on the path. *)
Theorem subtraction_sequence_never_raises (self : EuclideanGCD) (a b : Z) :
  let tracer := (compute_gcd self a b).2 in
  exists sequence,
    get_subtraction_sequence tracer = Ok sequence
    /\ length sequence
       = sum_list ((fun op => Z.to_nat op.1.1) <$> operations tracer)
    /\ forall x, x ∈ sequence -> x <> 0 /\ exists y, (y, x) ∈ path tracer.
Proof.
  destruct (compute_gcd_trace self a b) as (ops & pth & g & -> & Htr). simpl.
  exists (expand ops pth).
  destruct (euclid_trace_expand_any _ _ _ _ _ Htr) as [Hlen Hin].
  split; [|split; [done|]].
  - apply subtraction_sequence_expand, (euclid_trace_length _ _ _ _ _ Htr).
  - intros x Hx. destruct (Hin x Hx) as [Hnz [y Hy]]. split; [done|].
    exists y. apply elem_of_app. by left.
Qed.

Lemma euclid_trace_descending a b ops pth g :
  euclid_trace a b ops pth g -> 0 <= b ->
  StronglySorted (fun x y => y <= x) (expand ops pth)
  /\ Forall (fun x => 0 < x <= b) (expand ops pth).
Proof.
  induction 1 as [a|a b ops pth g Hb _ IH]; intros Hpos.
  - split; constructor.
  - pose proof (Z.mod_pos_bound a b ltac:(lia)) as Hmod.
    destruct IH as [IHsorted IHall]; [lia|]. rewrite expand_cons.
    assert (Forall (fun x => 0 < x <= b) (expand ops pth)) as Hrest.
    { eapply Forall_impl; [exact IHall|]. simpl. lia. }
    induction (Z.to_nat (a / b)) as [|n [IHn1 IHn2]]; [done|]. simpl.
    split.
    + constructor; [done|]. eapply Forall_impl; [exact IHn2|]. simpl. lia.
    + constructor; [lia|done].
Qed.

(** On non-negative operands the subtraction sequence never increases, and
    its elements are positive and at most [b]. *)
Theorem subtraction_sequence_descending (self : EuclideanGCD) (a b : Z) :
  0 <= a -> 0 <= b ->
  exists sequence,
    get_subtraction_sequence (compute_gcd self a b).2 = Ok sequence
    /\ StronglySorted (fun x y => y <= x) sequence
    /\ Forall (fun x => 0 < x <= b) sequence.
Proof.
  intros _ Hb.
  destruct (compute_gcd_trace self a b) as (ops & pth & g & -> & Htr). simpl.
  exists (expand ops pth). split.
  - apply subtraction_sequence_expand, (euclid_trace_length _ _ _ _ _ Htr).
  - by apply (euclid_trace_descending _ _ _ _ _ Htr).
Qed.

Lemma subtraction_sequence_descending_witness :
  exists sequence,
    get_subtraction_sequence (compute_gcd EuclideanGCD_init 21 13).2
      = Ok sequence
    /\ StronglySorted (fun x y => y <= x) sequence
    /\ Forall (fun x => 0 < x <= 13) sequence.
Proof.
  apply (subtraction_sequence_descending EuclideanGCD_init 21 13); lia.
Defined.

Lemma Fib_neighbours_divide (k : nat) :
  (1 <= k)%nat ->
  Fib (S (S k)) / Fib (S k) = 1 /\ Fib (S (S k)) mod Fib (S k) = Fib k.
Proof.
  intros Hk. pose proof (Fib_pos k). pose proof (Fib_lt_S k Hk).
  rewrite Fib_SS. split.
  - symmetry. apply (Z.div_unique _ _ 1 (Fib k)); lia.
  - symmetry. apply (Z.mod_unique _ _ 1 (Fib k)); lia.
Qed.

Lemma Fib_neighbours_trace (k : nat) :
  (1 <= k)%nat ->
  exists ops pth,
    euclid_trace (Fib (S k)) (Fib k) ops pth 1
    /\ length ops = k
    /\ (fun op => op.1.1) <$> ops = replicate (k - 1) 1 ++ [2]
    /\ expand ops pth = reverse (table (S k)).
Proof.
  induction k as [|k IH]; [lia|]. intros _.
  destruct (decide (k = 0%nat)) as [->|Hk].
  - exists [(2, 0, 1)], [(2, 1)]. split; [|done].
    apply (trace_divide 2 1 [] [] 1); [done|]. apply trace_stop.
  - destruct IH as (ops & pth & Htr & Hlen & Hq & Hexp); [lia|].
    destruct (Fib_neighbours_divide k ltac:(lia)) as [Hdiv Hmod].
    pose proof (Fib_pos (S k)).
    exists ((1, Fib k, 1) :: ops), ((Fib (S (S k)), Fib (S k)) :: pth).
    split; [|split; [|split]].
    + assert (euclid_trace (Fib (S k)) (Fib (S (S k)) mod Fib (S k))
                ops pth 1) as Htr' by (by rewrite Hmod).
      pose proof (trace_divide (Fib (S (S k))) (Fib (S k)) ops pth 1
                    ltac:(lia) Htr') as Hstep.
      by rewrite Hdiv, Hmod in Hstep.
    + simpl. by rewrite Hlen.
    + rewrite fmap_cons, Hq. simpl.
      replace (k - 0)%nat with (S (k - 1)) by lia. done.
    + rewrite expand_cons, Hexp, (table_S (S k)), reverse_app. done.
Qed.

Lemma table_length (n : nat) : length (table n) = n.
Proof. unfold table. by rewrite length_fmap, length_seq. Qed.

Lemma table_take (m n : nat) : (m <= n)%nat -> take m (table n) = table m.
Proof.
  intros Hm. unfold table. rewrite <- fmap_take, take_seq.
  by rewrite Nat.min_l.
Qed.

Lemma table_lookup_inv (n i : nat) (x : Z) :
  table n !! i = Some x -> (i < n)%nat /\ x = Fib i.
Proof.
  intros Hi. pose proof (lookup_lt_Some _ _ _ Hi) as Hlt.
  rewrite table_length in Hlt. rewrite table_lookup in Hi by done.
  split; [done|congruence].
Qed.

(** The worst case that the plot is titled with: for two neighbours
    [b = fib[k]], [a = fib[k + 1]] of a generated table ([k >= 1]),
    [compute_gcd(a, b)] returns 1 after exactly [k] steps, every quotient
    is 1 except the last, which is 2, and the subtraction sequence is the
    table prefix [fib[:k + 1]] reversed: the very cells whose squares the
    multiplication adds. *)
Theorem neighbours_worst_case (n : Z) (fib : list Z) (self : EuclideanGCD)
    (k : nat) (a b : Z) :
  _generate_fibonacci n = Ok fib ->
  (1 <= k)%nat -> fib !! k = Some b -> fib !! S k = Some a ->
  (compute_gcd self a b).1.1 = 1
  /\ length (compute_gcd self a b).1.2 = k
  /\ (fun op => op.1.1) <$> (compute_gcd self a b).1.2
     = replicate (k - 1) 1 ++ [2]
  /\ get_subtraction_sequence (compute_gcd self a b).2
     = Ok (reverse (take (S k) fib)).
Proof.
  rewrite generate_fibonacci_table. intros [= <-] Hk Hb Ha.
  apply table_lookup_inv in Hb as [_ ->].
  apply table_lookup_inv in Ha as [Hlt ->].
  rewrite table_take by lia.
  destruct (Fib_neighbours_trace k Hk) as (ops & pth & Htr & Hlen & Hq & Hexp).
  rewrite (compute_gcd_of_trace self _ _ _ _ _ Htr). simpl.
  split; [done|]. split; [done|]. split; [done|].
  rewrite <- Hexp.
  apply subtraction_sequence_expand, (euclid_trace_length _ _ _ _ _ Htr).
Qed.

Lemma neighbours_worst_case_witness :
  exists fib,
    _generate_fibonacci 23 = Ok fib
    /\ (1 <= 6)%nat /\ fib !! 6%nat = Some 13 /\ fib !! 7%nat = Some 21
    /\ (compute_gcd EuclideanGCD_init 21 13).1.1 = 1
    /\ length (compute_gcd EuclideanGCD_init 21 13).1.2 = 6%nat
    /\ (fun op => op.1.1) <$> (compute_gcd EuclideanGCD_init 21 13).1.2
       = replicate (6 - 1) 1 ++ [2]
    /\ get_subtraction_sequence (compute_gcd EuclideanGCD_init 21 13).2
       = Ok (reverse (take 7 fib)).
Proof.
  eexists. split; [vm_compute; reflexivity|].
  split; [lia|]. split; [reflexivity|]. split; [reflexivity|].
  apply (neighbours_worst_case 23 _ EuclideanGCD_init 6 21 13);
    [vm_compute; reflexivity|lia|reflexivity..].
Defined.

(** ** The Fibonacci table and the multiplier *)

(** [_generate_fibonacci(n)] raises nothing for any integer [n]; the list
    has [max(n, 2)] entries, so at least the seed [1, 1] even for [n] below
    2; it starts with 1, 1 and every later entry is the sum of the two
    before it. *)
Theorem generate_fibonacci_shape (n : Z) :
  exists fib,
    _generate_fibonacci n = Ok fib
    /\ Z.of_nat (length fib) = Z.max n 2
    /\ fib !! 0%nat = Some 1 /\ fib !! 1%nat = Some 1
    /\ forall (i : nat) z,
         fib !! S (S i) = Some z ->
         exists x y, fib !! i = Some x /\ fib !! S i = Some y /\ z = y + x.
Proof.
  rewrite generate_fibonacci_table. eexists. split; [done|].
  rewrite table_length. split; [lia|].
  split; [by apply table_lookup; lia|]. split; [by apply table_lookup; lia|].
  intros i z [Hlt ->]%table_lookup_inv.
  exists (Fib i), (Fib (S i)). rewrite !table_lookup by lia. done.
Qed.

(** In a generated table every entry is at least 1, the entries grow
    strictly from position 1 on, and [fib.index] finds an entry at its own
    position, except that the 1 of position 1 is found at position 0. *)
Theorem table_increasing (n : Z) (fib : list Z) :
  _generate_fibonacci n = Ok fib ->
  (forall (i : nat) x, fib !! i = Some x -> 1 <= x)
  /\ (forall (i j : nat) x y,
        (1 <= i < j)%nat -> fib !! i = Some x -> fib !! j = Some y -> x < y)
  /\ (forall (i : nat) x,
        fib !! i = Some x ->
        index x fib = Ok (if decide (i = 1%nat) then 0 else Z.of_nat i)).
Proof.
  rewrite generate_fibonacci_table. intros [= <-]. split; [|split].
  - intros i x [_ ->]%table_lookup_inv. apply Fib_pos.
  - intros i j x y Hij [_ ->]%table_lookup_inv [_ ->]%table_lookup_inv.
    by apply Fib_lt.
  - intros i x [Hlt ->]%table_lookup_inv. rewrite table_index by done.
    f_equal. destruct i as [|[|i]]; simpl; by repeat case_decide.
Qed.

Lemma table_increasing_witness :
  exists fib,
    _generate_fibonacci 23 = Ok fib
    /\ (forall (i : nat) x, fib !! i = Some x -> 1 <= x)
    /\ (forall (i j : nat) x y,
          (1 <= i < j)%nat -> fib !! i = Some x -> fib !! j = Some y -> x < y)
    /\ (forall (i : nat) x,
          fib !! i = Some x ->
          index x fib = Ok (if decide (i = 1%nat) then 0 else Z.of_nat i)).
Proof.
  eexists. split; [vm_compute; reflexivity|].
  apply (table_increasing 23). vm_compute. reflexivity.
Defined.

Lemma squares_of_lookup_None (l : list Z) (x : Z) :
  x ∉ l -> squares_of l !! x = None.
Proof.
  unfold squares_of.
  assert (forall d : gmap Z Z,
            x ∉ l -> d !! x = None ->
            fold_left (fun d f => <[f := f * f]> d) l d !! x = None) as Hfold.
  { induction l as [|y l IH]; intros d Hout Hd; [done|]. simpl.
    apply not_elem_of_cons in Hout as [Hne Hout].
    apply IH; [done|]. by rewrite lookup_insert_ne. }
  intros Hout. by apply Hfold.
Qed.

(** What [__init__] builds: the membership set holds exactly the table
    entries, and the dictionary of squares has exactly those keys, each
    with its square; any other key is missing. *)
Theorem multiplier_tables_agree (max_n : Z) (self : FractalMultiplier) (x : Z) :
  FractalMultiplier_init max_n = Ok self ->
  (x ∈ fib_set self <-> x ∈ fib self)
  /\ (x ∈ fib self -> dict_get (squares self) x = Ok (x * x))
  /\ (x ∉ fib self -> dict_get (squares self) x = Raise KeyError).
Proof.
  intros (n & _ & Hfib & Hset & Hsq)%FractalMultiplier_init_table.
  rewrite Hset, Hsq, Hfib. unfold dict_get. split; [|split].
  - apply elem_of_list_to_set.
  - intros Hin. by rewrite squares_of_lookup.
  - intros Hout. by rewrite squares_of_lookup_None.
Qed.

Lemma multiplier_tables_agree_witness :
  exists self,
    FractalMultiplier_init 23 = Ok self
    /\ (13 ∈ fib_set self <-> 13 ∈ fib self)
    /\ (13 ∈ fib self -> dict_get (squares self) 13 = Ok (13 * 13))
    /\ (13 ∉ fib self -> dict_get (squares self) 13 = Raise KeyError).
Proof.
  eexists. split; [vm_compute; reflexivity|].
  apply (multiplier_tables_agree 23). vm_compute. reflexivity.
Defined.

(** [compute_product] does not depend on the order of its operands. *)
Theorem compute_product_comm (self : FractalMultiplier) (a b : Z) :
  compute_product self a b = compute_product self b a.
Proof.
  unfold compute_product. rewrite (Z.min_comm b a), (Z.mul_comm b a).
  destruct (decide (a ∉ fib_set self \/ b ∉ fib_set self)),
           (decide (b ∉ fib_set self \/ a ∉ fib_set self)); tauto || done.
Qed.

(** On a multiplier that [__init__] built, [compute_product] never raises:
    neither [list.index] nor a table or dictionary access can fail. *)
Theorem compute_product_never_raises (max_n : Z) (self : FractalMultiplier)
    (a b : Z) :
  FractalMultiplier_init max_n = Ok self ->
  exists product, compute_product self a b = Ok product.
Proof.
  intros Hinit.
  destruct (decide (a ∉ fib_set self \/ b ∉ fib_set self)) as [Hout|Hin].
  { exists (a * b). unfold compute_product. by rewrite decide_True. }
  assert (a ∈ fib_set self /\ b ∈ fib_set self) as [Ha Hb].
  { destruct (decide (a ∈ fib_set self)), (decide (b ∈ fib_set self)); tauto. }
  apply (member_is_Fib _ _ _ Hinit) in Ha as (i & Hi & ->).
  apply (member_is_Fib _ _ _ Hinit) in Hb as (j & Hj & ->).
  apply FractalMultiplier_init_table in Hinit as (n & _ & Hfib & Hset & Hsq).
  rewrite Hfib, table_length in Hi, Hj.
  destruct (Nat.le_ge_cases i j) as [Hij|Hji].
  - destruct (compute_product_members self n i j Hfib Hset Hsq ltac:(lia))
      as [-> _]. by eexists.
  - destruct (compute_product_members self n j i Hfib Hset Hsq ltac:(lia))
      as [_ ->]. by eexists.
Qed.

Lemma compute_product_never_raises_witness :
  exists self,
    FractalMultiplier_init 23 = Ok self
    /\ exists product, compute_product self 5 21 = Ok product.
Proof.
  eexists. split; [vm_compute; reflexivity|].
  apply (compute_product_never_raises 23). vm_compute. reflexivity.
Defined.

(** On two table members the result is the smaller operand times the
    table entry after its first position, whatever the larger operand is;
    so it is the product [a * b] only when the larger operand is that
    entry. *)
Theorem compute_product_smaller_times_next (max_n : Z)
    (self : FractalMultiplier) (a b idx : Z) (next : Z) :
  FractalMultiplier_init max_n = Ok self ->
  a ∈ fib_set self -> b ∈ fib_set self ->
  index (Z.min a b) (fib self) = Ok idx ->
  fib self !! Z.to_nat (idx + 1) = Some next ->
  compute_product self a b = Ok (Z.min a b * next).
Proof.
  intros Hinit Ha Hb.
  apply (member_is_Fib _ _ _ Hinit) in Ha as (i & Hi & ->).
  apply (member_is_Fib _ _ _ Hinit) in Hb as (j & Hj & ->).
  apply FractalMultiplier_init_table in Hinit as (n & _ & Hfib & Hset & Hsq).
  rewrite Hfib, table_length in Hi, Hj. rewrite Hfib.
  assert (forall i j, (i <= j < n)%nat ->
            index (Fib i) (table n) = Ok idx ->
            table n !! Z.to_nat (idx + 1) = Some next ->
            square_sum (first_position i) = Fib i * next) as Hcase.
  { intros i' j' Hij. rewrite table_index by lia. intros [= <-].
    replace (Z.to_nat (Z.of_nat (first_position i') + 1))
      with (S (first_position i')) by lia.
    intros [_ ->]%table_lookup_inv.
    by rewrite square_sum_product, Fib_first_position. }
  destruct (Nat.le_ge_cases i j) as [Hij|Hji].
  - pose proof (Fib_mono i j Hij). rewrite Z.min_l by done.
    intros Hidx Hnext.
    destruct (compute_product_members self n i j Hfib Hset Hsq ltac:(lia))
      as [-> _]. f_equal. by apply (Hcase i j).
  - pose proof (Fib_mono j i Hji). rewrite Z.min_r by done.
    intros Hidx Hnext.
    destruct (compute_product_members self n j i Hfib Hset Hsq ltac:(lia))
      as [_ ->]. f_equal. by apply (Hcase j i).
Qed.

Lemma compute_product_smaller_times_next_witness :
  exists self,
    FractalMultiplier_init 23 = Ok self
    /\ 5 ∈ fib_set self /\ 21 ∈ fib_set self
    /\ index (Z.min 5 21) (fib self) = Ok 4
    /\ fib self !! Z.to_nat (4 + 1) = Some 8
    /\ compute_product self 5 21 = Ok (Z.min 5 21 * 8).
Proof.
  eexists. split; [vm_compute; reflexivity|].
  match goal with
  | |- ?P /\ ?Q /\ _ =>
      assert P as Ha by (apply (bool_decide_unpack _); vm_compute; reflexivity);
      assert Q as Hb by (apply (bool_decide_unpack _); vm_compute; reflexivity)
  end.
  split; [done|]. split; [done|]. split; [reflexivity|]. split; [reflexivity|].
  apply (compute_product_smaller_times_next 23 _ 5 21 4 8);
    [vm_compute; reflexivity|done|done|reflexivity|reflexivity].
Defined.

(** Two neighbours of the table, from the pair (2, 3) on, are multiplied
    exactly, in either order: the sum of the squares up to [fib[k]] is
    [fib[k] * fib[k + 1]]. *)
Theorem neighbours_multiply_exactly (max_n : Z) (self : FractalMultiplier)
    (k : nat) (a b : Z) :
  FractalMultiplier_init max_n = Ok self ->
  (2 <= k)%nat -> fib self !! k = Some a -> fib self !! S k = Some b ->
  compute_product self a b = Ok (a * b)
  /\ compute_product self b a = Ok (b * a).
Proof.
  intros Hinit Hk Ha Hb.
  pose proof (lookup_lt_Some _ _ _ Hb) as Hlt.
  pose proof (FractalMultiplier_init_table _ _ Hinit) as (n & _ & Hfib & _).
  rewrite Hfib in Ha, Hb.
  apply table_lookup_inv in Ha as [_ ->]. apply table_lookup_inv in Hb as [_ ->].
  by apply (compute_product_consecutive max_n).
Qed.

Lemma neighbours_multiply_exactly_witness :
  exists self,
    FractalMultiplier_init 23 = Ok self
    /\ (2 <= 6)%nat /\ fib self !! 6%nat = Some 13 /\ fib self !! 7%nat = Some 21
    /\ compute_product self 13 21 = Ok (13 * 21)
    /\ compute_product self 21 13 = Ok (21 * 13).
Proof.
  eexists. split; [vm_compute; reflexivity|].
  split; [lia|]. split; [reflexivity|]. split; [reflexivity|].
  apply (neighbours_multiply_exactly 23 _ 6);
    [vm_compute; reflexivity|lia|reflexivity..].
Defined.

(** Among the table entries from 2 on, the fast path returns the product
    only for neighbours: for [fib[i] <= fib[j]] the result is [a * b]
    exactly when [j = i + 1]; equal operands and operands further apart
    are multiplied wrongly. *)
Theorem only_neighbours_multiply_exactly (max_n : Z)
    (self : FractalMultiplier) (i j : nat) (a b : Z) :
  FractalMultiplier_init max_n = Ok self ->
  (2 <= i <= j)%nat -> fib self !! i = Some a -> fib self !! j = Some b ->
  compute_product self a b = Ok (a * b) <-> j = S i.
Proof.
  intros Hinit Hij Ha Hb.
  pose proof (lookup_lt_Some _ _ _ Hb) as Hlt.
  pose proof (FractalMultiplier_init_table _ _ Hinit) as (n & _ & Hfib & _).
  rewrite Hfib in Ha, Hb.
  apply table_lookup_inv in Ha as [_ ->]. apply table_lookup_inv in Hb as [_ ->].
  by apply (compute_product_exact_iff max_n).
Qed.

Lemma only_neighbours_multiply_exactly_witness :
  exists self,
    FractalMultiplier_init 23 = Ok self
    /\ (2 <= 4 <= 7)%nat
    /\ fib self !! 4%nat = Some 5 /\ fib self !! 7%nat = Some 21
    /\ (compute_product self 5 21 = Ok (5 * 21) <-> 7%nat = 5%nat).
Proof.
  eexists. split; [vm_compute; reflexivity|].
  split; [lia|]. split; [reflexivity|]. split; [reflexivity|].
  apply (only_neighbours_multiply_exactly 23 _ 4 7);
    [vm_compute; reflexivity|lia|reflexivity..].
Defined.

(** ** The simulator *)

Lemma Fib_le_pow2 (k : nat) : Fib k <= 2 ^ Z.of_nat k.
Proof.
  induction k as [k IH] using lt_wf_ind.
  destruct k as [|[|k]]; [done..|]. rewrite Fib_SS.
  pose proof (IH (S k) ltac:(lia)). pose proof (IH k ltac:(lia)).
  replace (Z.of_nat (S (S k))) with (Z.of_nat k + 2) by lia.
  replace (Z.of_nat (S k)) with (Z.of_nat k + 1) in * by lia.
  rewrite !Z.pow_add_r in * by lia.
  change (2 ^ 2) with 4. change (2 ^ 1) with 2 in *.
  pose proof (Z.pow_pos_nonneg 2 (Z.of_nat k) ltac:(lia) ltac:(lia)). lia.
Qed.

Lemma Fib_double_ge_pow2 (k : nat) : 2 ^ Z.of_nat k <= Fib (2 * k).
Proof.
  induction k as [|k IH]; [done|].
  replace (2 * S k)%nat with (S (S (2 * k))) by lia. rewrite Fib_SS.
  pose proof (Fib_mono_S (2 * k)).
  replace (Z.of_nat (S k)) with (Z.of_nat k + 1) by lia.
  rewrite Z.pow_add_r by lia. change (2 ^ 1) with 2. lia.
Qed.

Lemma cell_loop_total (bc : float) (l : list Z) (d : gmap Z float) :
  (forall x, x ∈ l -> Z.abs (x ^ 2) < 2 ^ 1024 - 2 ^ 970) ->
  exists d', for_in (cell_entry bc) l d = Ok d'.
Proof.
  intros Hsmall.
  destruct (for_in_total (cell_entry bc) (fun _ => True) l) with d
    as (d' & Hd' & _); [|done|by exists d'].
  intros x d0 Hx _. unfold cell_entry, Np.float_of_int.
  rewrite decide_True by (by apply Hsmall). simpl. by eexists.
Qed.

Lemma cell_loop_error (bc : float) (l : list Z) (d : gmap Z float) (e : exn) :
  for_in (cell_entry bc) l d = Raise e -> e = OverflowError.
Proof.
  revert d. induction l as [|y l IH]; intros d; [done|].
  rewrite for_in_cons.
  destruct (cell_entry bc y d) as [d1|e1] eqn:Hstep; simpl; [apply IH|].
  intros [= <-]. unfold cell_entry, Np.float_of_int in Hstep.
  destruct (decide _); simpl in Hstep; congruence.
Qed.

Lemma bind_Ok {A B} (x : A) (k : A -> result B) : (Ok x ≫= k) = k x.
Proof. done. Qed.

Lemma FractalMultiplier_init_eq (max_n : Z) :
  FractalMultiplier_init max_n
  = Ok {| fib := table (2 + Z.to_nat (max_n - 2));
          fib_set := list_to_set (table (2 + Z.to_nat (max_n - 2)));
          squares := squares_of (table (2 + Z.to_nat (max_n - 2))) |}.
Proof.
  unfold FractalMultiplier_init. by rewrite generate_fibonacci_table.
Qed.

(** [__init__(max_fib)] raises nothing for any table size up to 511, the
    default 23 included: every square [size**2] converts to a float. *)
Theorem simulator_init_succeeds (max_fib : Z) :
  max_fib <= 511 ->
  exists self, AnalogComputingSimulator_init max_fib = Ok self.
Proof.
  intros Hmax. unfold AnalogComputingSimulator_init.
  rewrite FractalMultiplier_init_eq, bind_Ok. cbn [fib].
  destruct (cell_loop_total 1e-6 (table (2 + Z.to_nat (max_fib - 2))) ∅)
    as [d ->]; [|by eexists].
  intros x (k & Hk & ->)%table_elem.
  pose proof (Fib_pos k). pose proof (Fib_le_pow2 k).
  assert (Fib k ^ 2 <= 2 ^ 1020) as Hsq.
  { replace (Fib k ^ 2) with (Fib k * Fib k) by lia.
    transitivity (2 ^ Z.of_nat k * 2 ^ Z.of_nat k); [nia|].
    rewrite <- Z.pow_add_r by lia. apply Z.pow_le_mono_r; lia. }
  assert (2 ^ 1020 < 2 ^ 1024 - 2 ^ 970) by (vm_compute; reflexivity).
  lia.
Qed.

Lemma simulator_init_succeeds_witness :
  exists self, AnalogComputingSimulator_init 23 = Ok self.
Proof. apply (simulator_init_succeeds 23). lia. Defined.

(** From 1025 entries on [__init__] fails with [OverflowError]: the square
    of the table entry at position 1024 is at least [2^1024] and has no
    float. *)
Theorem simulator_init_overflows (max_fib : Z) :
  1025 <= max_fib ->
  AnalogComputingSimulator_init max_fib = Raise OverflowError.
Proof.
  intros Hmax. unfold AnalogComputingSimulator_init.
  rewrite FractalMultiplier_init_eq, bind_Ok. cbn [fib].
  destruct (for_in _ (table _) ∅) as [d|e] eqn:Hloop; [rewrite bind_Ok|].
  - exfalso. apply cell_loop in Hloop as [_ Hsmall].
    destruct (Hsmall (Fib (2 * 512))) as [_ Hlt].
    { apply table_elem. exists (2 * 512)%nat. split; [lia|done]. }
    pose proof (Fib_double_ge_pow2 512) as Hbig.
    set (x := Fib (2 * 512)) in *.
    assert (2 ^ 1024 <= x ^ 2) as Hsq.
    { replace (x ^ 2) with (x * x) by lia.
      change (2 ^ 1024) with (2 ^ Z.of_nat 512 * 2 ^ Z.of_nat 512).
      pose proof (Z.pow_pos_nonneg 2 (Z.of_nat 512) ltac:(lia) ltac:(lia)).
      nia. }
    assert (0 < 2 ^ 970) by (vm_compute; reflexivity). lia.
  - by apply cell_loop_error in Hloop as ->.
Qed.

Lemma simulator_init_overflows_witness :
  AnalogComputingSimulator_init 1025 = Raise OverflowError.
Proof. apply (simulator_init_overflows 1025). lia. Defined.

Lemma cell_loop_content (bc : float) (l : list Z) (d d' : gmap Z float) :
  for_in (cell_entry bc) l d = Ok d' ->
  forall x,
    (x ∈ l -> exists f, Np.float_of_int (x ^ 2) = Ok f
                        /\ d' !! x = Some (bc * f)%float)
    /\ (x ∉ l -> d' !! x = d !! x).
Proof.
  revert d. induction l as [|y l IH]; intros d.
  - intros [= <-] x. split; [by intros ?%elem_of_nil|done].
  - rewrite for_in_cons.
    destruct (cell_entry bc y d) as [d1|] eqn:Hstep; [|done].
    rewrite bind_Ok. intros Hloop x.
    unfold cell_entry in Hstep.
    destruct (Np.float_of_int (y ^ 2)) as [fy|] eqn:Hfy; [|done].
    rewrite bind_Ok in Hstep. injection Hstep as <-.
    destruct (IH _ Hloop x) as [IHin IHout].
    destruct (decide (x ∈ l)) as [Hin|Hnin].
    + split; [by intros _; apply IHin|]. intros []. by right.
    + split.
      * intros [->|?]%elem_of_cons; [|done]. exists fy. split; [done|].
        by rewrite IHout, lookup_insert_eq.
      * intros [Hne _]%not_elem_of_cons.
        by rewrite IHout, lookup_insert_ne.
Qed.

(** What [__init__] builds: the multiplier of the same size, a fresh
    tracer, base conductance 1e-6 and noise 0.05, and one cell per table
    entry, holding [1e-6 * size**2]; any other key is missing. *)
Theorem simulator_cells (max_fib : Z) (self : AnalogComputingSimulator) :
  AnalogComputingSimulator_init max_fib = Ok self ->
  FractalMultiplier_init max_fib = Ok (fm self)
  /\ gcd self = EuclideanGCD_init
  /\ base_conductance self = 1e-6%float
  /\ noise_std self = 0.05%float
  /\ forall size,
       (size ∈ fib (fm self) ->
        exists f, Np.float_of_int (size ^ 2) = Ok f
                  /\ dict_get (cells self) size = Ok (1e-6 * f)%float)
       /\ (size ∉ fib (fm self) ->
           dict_get (cells self) size = Raise KeyError).
Proof.
  unfold AnalogComputingSimulator_init.
  destruct (FractalMultiplier_init max_fib) as [m|]; [|done].
  rewrite bind_Ok.
  destruct (for_in _ (fib m) ∅) as [d|] eqn:Hloop; [|done].
  rewrite bind_Ok. intros [= <-]. cbn [fm gcd base_conductance noise_std cells].
  repeat (split; [done|]). intros size.
  destruct (cell_loop_content _ _ _ _ Hloop size) as [Hin Hout].
  unfold dict_get. split.
  - intros (f & Hf & ->)%Hin. by exists f.
  - intros ->%Hout. by rewrite lookup_empty.
Qed.

Lemma simulator_cells_witness :
  exists self,
    AnalogComputingSimulator_init 23 = Ok self
    /\ FractalMultiplier_init 23 = Ok (fm self)
    /\ gcd self = EuclideanGCD_init
    /\ base_conductance self = 1e-6%float
    /\ noise_std self = 0.05%float
    /\ forall size,
         (size ∈ fib (fm self) ->
          exists f, Np.float_of_int (size ^ 2) = Ok f
                    /\ dict_get (cells self) size = Ok (1e-6 * f)%float)
         /\ (size ∉ fib (fm self) ->
             dict_get (cells self) size = Raise KeyError).
Proof.
  eexists. split; [vm_compute; reflexivity|].
  apply (simulator_cells 23). vm_compute. reflexivity.
Defined.

Lemma index_found (x : Z) (l : list Z) (i : Z) :
  index x l = Ok i ->
  0 <= i < Z.of_nat (length l) /\ l !! Z.to_nat i = Some x.
Proof.
  revert i. induction l as [|y l IH]; intros i; [done|]. simpl.
  destruct (decide (y = x)) as [->|Hne].
  - intros [= <-]. split; [lia|done].
  - destruct (index x l) as [j|]; [|done]. rewrite bind_Ok. intros [= <-].
    destruct (IH j eq_refl) as [Hj Hl]. split; [lia|].
    replace (Z.to_nat (j + 1)) with (S (Z.to_nat j)) by lia. done.
Qed.

Lemma noisy_loop_draws (self : AnalogComputingSimulator) (l : list Z)
    (acc cs : list float) (rs rs' : Np.RandomState) :
  for_in (noisy_conductance self) l (acc, rs) = Ok (cs, rs') ->
  forall i, rs' i = rs (length l + i)%nat.
Proof.
  revert acc rs. induction l as [|x l IH]; intros acc rs.
  - by intros [= _ <-].
  - rewrite for_in_cons.
    destruct (noisy_conductance self x (acc, rs)) as [[acc1 rs1]|] eqn:Hstep;
      [|done].
    rewrite bind_Ok. unfold noisy_conductance, Np.random_normal in Hstep.
    destruct (dict_get (cells self) x) as [c|]; [|done].
    rewrite bind_Ok in Hstep.
    destruct (get_sign (noise_std self)); [done|].
    rewrite bind_Ok in Hstep. injection Hstep as <- <-.
    intros Hloop i. by rewrite (IH _ _ Hloop).
Qed.

(** A run of [simulate_multiplication] that returns has passed the guard,
    reports the product [a * b] as the true product, counts as active
    cells the table prefix up to the first position of the smaller
    operand, and has taken exactly one draw per active cell from the
    random source. *)
Theorem multiplication_draws_per_cell (np : Np.lib)
    (self : AnalogComputingSimulator) (a b : Z) (voltage : float)
    (rs rs' : Np.RandomState) (r : MultiplicationResult) :
  simulate_multiplication np self a b voltage rs = Ok (r, rs') ->
  a ∈ fib_set (fm self) /\ b ∈ fib_set (fm self)
  /\ true_product r = a * b
  /\ exists idx,
       index (Z.min a b) (fib (fm self)) = Ok idx
       /\ fib (fm self) !! Z.to_nat idx = Some (Z.min a b)
       /\ active_cells r = idx + 1
       /\ forall i, rs' i = rs (Z.to_nat (idx + 1) + i)%nat.
Proof.
  unfold simulate_multiplication.
  destruct (decide (a ∉ fib_set (fm self) \/ b ∉ fib_set (fm self)))
    as [|Hin]; [done|].
  destruct (index _ _) as [idx|] eqn:Hidx; [|done]. rewrite bind_Ok.
  destruct (for_in _ _ _) as [[cs rs1]|] eqn:Hloop; [|done]. rewrite bind_Ok.
  destruct (Np.float_of_int (a * b)) as [ab|]; [|done]. rewrite bind_Ok.
  intros [= <- <-]. cbn [true_product active_cells].
  destruct (index_found _ _ _ Hidx) as [Hrange Hat].
  assert (length (slice_to (fib (fm self)) (idx + 1)) = Z.to_nat (idx + 1))
    as Hlen by (unfold slice_to; rewrite length_take; lia).
  split; [|split; [|split; [done|]]].
  - destruct (decide (a ∈ fib_set (fm self))); tauto.
  - destruct (decide (b ∈ fib_set (fm self))); tauto.
  - exists idx. split; [done|]. split; [done|]. split; [lia|].
    intros i. by rewrite (noisy_loop_draws _ _ _ _ _ _ Hloop), Hlen.
Qed.

Lemma multiplication_draws_per_cell_witness :
  exists self,
    AnalogComputingSimulator_init 23 = Ok self
    /\ exists r rs',
         simulate_multiplication (Np.mkLib (fun x => x) (fun _ => 0%float))
           self 8 13 1 (fun i => if Nat.even i then 0.5%float else 0.25%float)
         = Ok (r, rs')
         /\ 8 ∈ fib_set (fm self) /\ 13 ∈ fib_set (fm self)
         /\ true_product r = 8 * 13
         /\ exists idx,
              index (Z.min 8 13) (fib (fm self)) = Ok idx
              /\ fib (fm self) !! Z.to_nat idx = Some (Z.min 8 13)
              /\ active_cells r = idx + 1
              /\ forall i,
                   rs' i
                   = (fun i => if Nat.even i then 0.5%float else 0.25%float)
                       (Z.to_nat (idx + 1) + i)%nat.
Proof.
  eexists. split; [vm_compute; reflexivity|].
  eexists _, _. split; [vm_compute; reflexivity|].
  apply (multiplication_draws_per_cell
           (Np.mkLib (fun x => x) (fun _ => 0%float)) _ 8 13 1
           (fun i => if Nat.even i then 0.5%float else 0.25%float)).
  vm_compute. reflexivity.
Defined.

(** With the noise standard deviation at 0 the result does not depend on
    the random draws, as long as they are finite: a run on other finite
    draws returns the same record. *)
Theorem noise_free_result_independent (np : Np.lib)
    (self : AnalogComputingSimulator) (a b : Z) (voltage : float)
    (rs1 rs2 rs1' : Np.RandomState) (r : MultiplicationResult) :
  noise_std self = 0%float ->
  (forall i, is_finite (rs1 i) = true) ->
  (forall i, is_finite (rs2 i) = true) ->
  simulate_multiplication np self a b voltage rs1 = Ok (r, rs1') ->
  exists rs2', simulate_multiplication np self a b voltage rs2 = Ok (r, rs2').
Proof.
  intros Hstd Hfin1 Hfin2 Hrun.
  pose proof (noise_free_any_draws np self a b voltage rs1 rs2
                Hstd Hfin1 Hfin2) as Hsame.
  rewrite Hrun in Hsame.
  destruct (simulate_multiplication np self a b voltage rs2)
    as [[r2 rs2']|]; [|done].
  subst r2. by exists rs2'.
Qed.

Lemma noise_free_result_independent_witness :
  exists self,
    AnalogComputingSimulator_init 23 = Ok self
    /\ exists r rs1',
         noise_std (set_noise_std self 0) = 0%float
         /\ (forall i : nat, is_finite ((fun _ => 0.5%float) i) = true)
         /\ (forall i : nat, is_finite ((fun _ => 0.25%float) i) = true)
         /\ simulate_multiplication (Np.mkLib (fun x => x) (fun _ => 0%float))
              (set_noise_std self 0) 8 13 1 (fun _ => 0.5%float)
            = Ok (r, rs1')
         /\ exists rs2',
              simulate_multiplication
                (Np.mkLib (fun x => x) (fun _ => 0%float))
                (set_noise_std self 0) 8 13 1 (fun _ => 0.25%float)
              = Ok (r, rs2').
Proof.
  eexists. split; [vm_compute; reflexivity|].
  eexists _, _. split; [reflexivity|].
  split; [intros i; reflexivity|]. split; [intros i; reflexivity|].
  split; [vm_compute; reflexivity|].
  eapply (noise_free_result_independent
            (Np.mkLib (fun x => x) (fun _ => 0%float)) _ 8 13 1
            (fun _ => 0.5%float) (fun _ => 0.25%float));
    [reflexivity|intros i; reflexivity|intros i; reflexivity|].
  vm_compute. reflexivity.
Defined.

Lemma simulate_gcd_computation_returns (self self' : AnalogComputingSimulator)
    (a b : Z) (r : GcdResult) :
  simulate_gcd_computation self a b = Ok (r, self') ->
  a ∈ fib_set (fm self) /\ b ∈ fib_set (fm self)
  /\ gcd_value r = (compute_gcd (gcd self) a b).1.1
  /\ steps r = Z.of_nat (length (cells_deactivated r))
  /\ self' = {| fm := fm self; gcd := (compute_gcd (gcd self) a b).2;
                base_conductance := base_conductance self;
                cells := cells self; noise_std := noise_std self |}
  /\ exists idx active,
       index (Z.min a b) (fib (fm self)) = Ok idx
       /\ final_active_cells r = elements active
       /\ for_in (deactivate self')
            (enumerate (all_but_last (path (gcd self'))))
            (list_to_set (slice_to (fib (fm self)) (idx + 1)), [])
          = Ok (active, cells_deactivated r).
Proof.
  unfold simulate_gcd_computation.
  destruct (decide (a ∉ fib_set (fm self) \/ b ∉ fib_set (fm self)))
    as [|Hin]; [done|].
  destruct (index _ _) as [idx|] eqn:Hidx; [|done]. rewrite bind_Ok.
  destruct (compute_gcd (gcd self) a b) as [[g ops] tracer].
  cbn [fst snd gcd].
  destruct (for_in _ _ _) as [[active removed]|] eqn:Hloop; [|done].
  rewrite bind_Ok. intros [= <- <-].
  cbn [gcd_value steps cells_deactivated final_active_cells].
  split; [destruct (decide (a ∈ fib_set (fm self))); tauto|].
  split; [destruct (decide (b ∈ fib_set (fm self))); tauto|].
  repeat (split; [done|]). by exists idx, active.
Qed.

(** On table members the simulation reports the greatest common divisor
    and the number of recorded deactivations, leaves the table and the
    cells of the simulator as they were, and leaves in the simulator's
    tracer the trace of [compute_gcd(a, b)]. *)
Theorem gcd_simulation_result (max_fib : Z)
    (self self' : AnalogComputingSimulator) (a b : Z) (r : GcdResult) :
  AnalogComputingSimulator_init max_fib = Ok self ->
  simulate_gcd_computation self a b = Ok (r, self') ->
  gcd_value r = Z.gcd a b
  /\ steps r = Z.of_nat (length (cells_deactivated r))
  /\ fm self' = fm self /\ cells self' = cells self
  /\ base_conductance self' = base_conductance self
  /\ noise_std self' = noise_std self
  /\ gcd self' = (compute_gcd EuclideanGCD_init a b).2.
Proof.
  intros Hwb%init_well_built
         (Ha & Hb & Hg & Hsteps & -> & _)%simulate_gcd_computation_returns.
  destruct (smaller_index self a b Hwb Ha Hb) as (_ & _ & _ & Ha1 & Hb1).
  cbn [fm cells base_conductance noise_std gcd].
  split; [|done]. rewrite Hg.
  destruct (compute_gcd_trace (gcd self) a b) as (ops & pth & g & -> & Htr).
  apply (euclid_trace_gcd _ _ _ _ _ Htr); lia.
Qed.

Lemma gcd_simulation_result_witness :
  exists self,
    AnalogComputingSimulator_init 23 = Ok self
    /\ exists r self',
         simulate_gcd_computation self 34 55 = Ok (r, self')
         /\ gcd_value r = Z.gcd 34 55
         /\ steps r = Z.of_nat (length (cells_deactivated r))
         /\ fm self' = fm self /\ cells self' = cells self
         /\ base_conductance self' = base_conductance self
         /\ noise_std self' = noise_std self
         /\ gcd self' = (compute_gcd EuclideanGCD_init 34 55).2.
Proof.
  eexists. split; [vm_compute; reflexivity|].
  eexists _, _. split; [vm_compute; reflexivity|].
  apply (gcd_simulation_result 23); vm_compute; reflexivity.
Defined.

Lemma deactivate_loop (self : AnalogComputingSimulator)
    (es : list (Z * (Z * Z))) :
  forall active removed active' removed',
    for_in (deactivate self) es (active, removed) = Ok (active', removed') ->
    exists new,
      removed' = removed ++ new
      /\ sublist ((fun s => (step s, deactivated s)) <$> new)
                 ((fun e => (e.1, e.2.2)) <$> es)
      /\ (forall v, v ∈ active' <-> v ∈ active /\ v ∉ (fun e => e.2.2) <$> es)
      /\ (forall v, v ∈ deactivated <$> new <->
                    v ∈ active /\ v ∈ (fun e => e.2.2) <$> es).
Proof.
  induction es as [|[i [x y]] es IH]; intros active removed active' removed'.
  - intros [= <- <-]. exists []. rewrite app_nil_r.
    split; [done|]. split; [constructor|]. split; intros v.
    + split; [|tauto]. intros Hv. split; [done|]. apply not_elem_of_nil.
    + split; [by intros ?%elem_of_nil|]. by intros [_ ?%elem_of_nil].
  - rewrite for_in_cons.
    destruct (deactivate self (i, (x, y)) (active, removed))
      as [[active1 removed1]|] eqn:Hstep; [|done].
    rewrite bind_Ok. intros Hloop.
    destruct (IH _ _ _ _ Hloop) as (new & -> & Hsub & Hact & Hrem).
    unfold deactivate in Hstep. rewrite !fmap_cons. cbn [fst snd].
    destruct (decide (y ∈ active)) as [Hin|Hnin].
    + destruct (remaining self (active ∖ {[y]})) as [rc|]; [|done].
      rewrite bind_Ok in Hstep. injection Hstep as <- <-.
      exists ({| step := i; deactivated := y; remaining_conductance := rc |}
                :: new).
      split; [by rewrite <- app_assoc|]. split; [by constructor|].
      split; intros v.
      * rewrite Hact, elem_of_difference, elem_of_singleton, not_elem_of_cons.
        tauto.
      * rewrite fmap_cons, !elem_of_cons, Hrem, elem_of_difference,
          elem_of_singleton. cbn [deactivated].
        destruct (decide (v = y)) as [->|]; tauto.
    + injection Hstep as <- <-. exists new.
      split; [done|]. split; [by constructor|]. split; intros v.
      * rewrite Hact, not_elem_of_cons.
        destruct (decide (v = y)) as [->|]; tauto.
      * rewrite Hrem, elem_of_cons.
        destruct (decide (v = y)) as [->|]; tauto.
Qed.

Lemma enumerate_divisors {A B} (l : list (A * B)) :
  (fun e : Z * (A * B) => e.2.2) <$> enumerate l = l.*2.
Proof.
  unfold enumerate.
  change (fun e : Z * (A * B) => e.2.2) with (@snd A B ∘ @snd Z (A * B)).
  rewrite list_fmap_compose, snd_zip; [done|].
  by rewrite length_fmap, length_seq.
Qed.

Lemma enumerate_lookup {A} (l : list A) (i : Z) (x : A) :
  (i, x) ∈ enumerate l -> 0 <= i /\ l !! Z.to_nat i = Some x.
Proof.
  unfold enumerate. intros [k Hk]%list_elem_of_lookup.
  apply lookup_zip_Some in Hk as [Hi Hx].
  rewrite list_lookup_fmap in Hi.
  destruct (seq 0 (length l) !! k) as [k'|] eqn:Hseq; [|done].
  apply lookup_seq in Hseq as [-> _]. injection Hi as <-.
  split; [lia|]. by rewrite Nat2Z.id.
Qed.

Lemma enumerate_positions {A} (l : list A) :
  (enumerate l).*1 = Z.of_nat <$> seq 0 (length l).
Proof.
  unfold enumerate. apply fst_zip. by rewrite length_fmap, length_seq.
Qed.

Lemma StronglySorted_sublist {A} (R : relation A) (l1 l2 : list A) :
  sublist l1 l2 -> StronglySorted R l2 -> StronglySorted R l1.
Proof.
  induction 1 as [|x l1 l2 Hsub IH|x l1 l2 Hsub IH]; [done|..];
    intros [Hsorted Hall]%StronglySorted_inv.
  - constructor; [by apply IH|].
    apply Forall_forall. intros y Hy. rewrite Forall_forall in Hall.
    apply Hall. by apply (elem_of_sublist l1).
  - by apply IH.
Qed.

Lemma positions_sorted (n : nat) :
  StronglySorted Z.lt (Z.of_nat <$> seq 0 n).
Proof.
  generalize 0%nat. induction n as [|n IH]; intros j; [constructor|].
  simpl. constructor; [apply IH|].
  apply Forall_forall. intros z (k & -> & Hk)%list_elem_of_fmap.
  apply elem_of_seq in Hk. lia.
Qed.

(** Which cells a returned GCD simulation deactivates: exactly the values
    of the initial active set that occur as a divisor on the Euclidean
    path; the remaining active cells are those that never do.  Each
    record's step number is the position of its divisor on the path, and
    the step numbers increase strictly. *)
Theorem deactivated_are_path_divisors (self self' : AnalogComputingSimulator)
    (a b : Z) (r : GcdResult) :
  simulate_gcd_computation self a b = Ok (r, self') ->
  exists idx,
    index (Z.min a b) (fib (fm self)) = Ok idx
    /\ let initial : gset Z :=
         list_to_set (slice_to (fib (fm self)) (idx + 1)) in
       let divisors := (all_but_last (path (gcd self'))).*2 in
       (forall v, v ∈ final_active_cells r <-> v ∈ initial /\ v ∉ divisors)
       /\ (forall v, v ∈ deactivated <$> cells_deactivated r <->
                     v ∈ initial /\ v ∈ divisors)
       /\ (forall s, s ∈ cells_deactivated r ->
             0 <= step s
             /\ exists x, path (gcd self') !! Z.to_nat (step s)
                          = Some (x, deactivated s))
       /\ StronglySorted Z.lt (step <$> cells_deactivated r).
Proof.
  intros (_ & _ & _ & _ & _ & idx & active & Hidx & Hfinal & Hloop)
         %simulate_gcd_computation_returns.
  exists idx. split; [done|]. cbn zeta.
  destruct (deactivate_loop _ _ _ _ _ _ Hloop)
    as (new & Hnew & Hsub & Hact & Hrem).
  simpl in Hnew. subst new. rewrite enumerate_divisors in Hact, Hrem.
  split; [|split; [done|split]].
  - intros v. by rewrite Hfinal, elem_of_elements.
  - intros s Hs.
    assert ((step s, deactivated s)
              ∈ (fun e : Z * (Z * Z) => (e.1, e.2.2))
                  <$> enumerate (all_but_last (path (gcd self')))) as Hpos.
    { apply (elem_of_sublist _ _ _ (list_elem_of_fmap_2 _ _ _ Hs) Hsub). }
    apply list_elem_of_fmap in Hpos as ([i [x y]] & [= -> ->] & He).
    apply enumerate_lookup in He as [Hi He]. split; [done|]. exists x.
    unfold all_but_last in He. by apply lookup_take_Some in He as [He _].
  - apply (StronglySorted_sublist _ _
             ((enumerate (all_but_last (path (gcd self')))).*1)).
    + pose proof (fmap_sublist fst _ _ Hsub) as Hfst.
      rewrite <- !list_fmap_compose in Hfst. exact Hfst.
    + rewrite enumerate_positions. apply positions_sorted.
Qed.

Lemma deactivated_are_path_divisors_witness :
  exists self,
    AnalogComputingSimulator_init 23 = Ok self
    /\ exists r self',
         simulate_gcd_computation self 5 21 = Ok (r, self')
         /\ exists idx,
              index (Z.min 5 21) (fib (fm self)) = Ok idx
              /\ let initial : gset Z :=
                   list_to_set (slice_to (fib (fm self)) (idx + 1)) in
                 let divisors := (all_but_last (path (gcd self'))).*2 in
                 (forall v, v ∈ final_active_cells r <->
                            v ∈ initial /\ v ∉ divisors)
                 /\ (forall v, v ∈ deactivated <$> cells_deactivated r <->
                               v ∈ initial /\ v ∈ divisors)
                 /\ (forall s, s ∈ cells_deactivated r ->
                       0 <= step s
                       /\ exists x, path (gcd self') !! Z.to_nat (step s)
                                    = Some (x, deactivated s))
                 /\ StronglySorted Z.lt (step <$> cells_deactivated r).
Proof.
  eexists. split; [vm_compute; reflexivity|].
  eexists _, _. split; [vm_compute; reflexivity|].
  apply (deactivated_are_path_divisors _ _ 5 21). vm_compute. reflexivity.
Defined.

Lemma sublist_full {A} (l1 l2 : list A) :
  sublist l1 l2 -> NoDup l2 -> (forall x, x ∈ l2 -> x ∈ l1) -> l1 = l2.
Proof.
  induction 1 as [|x l1 l2 Hsub IH|x l1 l2 Hsub IH]; [done|..];
    intros [Hx Hnodup]%NoDup_cons Hall.
  - f_equal. apply IH; [done|]. intros y Hy.
    assert (y ∈ x :: l1) as [->|Hin]%elem_of_cons
        by (apply Hall; by right); [by destruct Hx|done].
  - exfalso. apply Hx. apply (elem_of_sublist l1); [|done]. apply Hall. left.
Qed.

Lemma all_deactivated (self : AnalogComputingSimulator) (initial : gset Z)
    (es : list (Z * (Z * Z))) (extra D : list Z)
    (active' : gset Z) (removed' : list DeactivationStep) :
  for_in (deactivate self) es (initial, []) = Ok (active', removed') ->
  (fun e => e.2.2) <$> es = extra ++ D ->
  (forall v, v ∈ extra -> v ∉ initial) ->
  NoDup D -> (forall v, v ∈ initial <-> v ∈ D) ->
  active' = ∅ /\ deactivated <$> removed' = D.
Proof.
  intros (new & Hnew & Hsub & Hact & Hrem)%deactivate_loop
         Hdiv Hextra Hnodup Hinit.
  simpl in Hnew. subst new. rewrite Hdiv in Hact, Hrem. split.
  - apply elem_of_equiv_empty_L. intros v [Hv Hout]%Hact.
    apply Hout, elem_of_app. right. by apply Hinit.
  - pose proof (fmap_sublist snd _ _ Hsub) as Hval.
    rewrite <- !list_fmap_compose in Hval.
    change (snd ∘ (fun e : Z * (Z * Z) => (e.1, e.2.2)))
      with (fun e : Z * (Z * Z) => e.2.2) in Hval.
    change (snd ∘ (fun s => (step s, deactivated s))) with deactivated in Hval.
    rewrite Hdiv in Hval.
    apply sublist_app_r in Hval as (l1 & l2 & Heq & Hl1 & Hl2).
    destruct l1 as [|v l1].
    + simpl in Heq. rewrite Heq. apply sublist_full; [done..|].
      intros x Hx. rewrite <- Heq. apply Hrem. split; [by apply Hinit|].
      apply elem_of_app. by right.
    + exfalso. apply (Hextra v).
      * apply (elem_of_sublist (v :: l1)); [left|done].
      * apply Hrem. rewrite Heq. left.
Qed.

Lemma Fib_neighbours_divisors (k : nat) :
  (1 <= k)%nat ->
  exists ops pth,
    euclid_trace (Fib (S k)) (Fib k) ops pth 1
    /\ pth.*2 = reverse (drop 1 (table (S k))).
Proof.
  induction k as [|k IH]; [lia|]. intros _.
  destruct (decide (k = 0%nat)) as [->|Hk].
  - exists [(2, 0, 1)], [(2, 1)]. split; [|done].
    apply (trace_divide 2 1 [] [] 1); [done|]. apply trace_stop.
  - destruct IH as (ops & pth & Htr & Hdiv); [lia|].
    destruct (Fib_neighbours_divide k ltac:(lia)) as [Hq Hmod].
    pose proof (Fib_pos (S k)).
    exists ((1, Fib k, 1) :: ops), ((Fib (S (S k)), Fib (S k)) :: pth). split.
    + assert (euclid_trace (Fib (S k)) (Fib (S (S k)) mod Fib (S k))
                ops pth 1) as Htr' by (by rewrite Hmod).
      pose proof (trace_divide (Fib (S (S k))) (Fib (S k)) ops pth 1
                    ltac:(lia) Htr') as Hstep.
      by rewrite Hq, Hmod in Hstep.
    + rewrite fmap_cons, Hdiv, (table_S (S k)). cbn [snd].
      rewrite drop_app_le by (rewrite table_length; lia).
      by rewrite reverse_app.
Qed.

Lemma neighbour_divisors_elem (k : nat) (v : Z) :
  v ∈ reverse (drop 1 (table (S k))) <->
  exists j, (1 <= j <= k)%nat /\ v = Fib j.
Proof.
  rewrite elem_of_reverse. unfold table.
  rewrite <- fmap_drop, drop_seq, list_elem_of_fmap.
  setoid_rewrite elem_of_seq.
  split; intros (j & H1 & H2); exists j; split; (done || lia).
Qed.

Lemma neighbour_divisors_NoDup (k : nat) :
  NoDup (reverse (drop 1 (table (S k)))).
Proof.
  rewrite reverse_Permutation. unfold table. rewrite <- fmap_drop, drop_seq.
  apply NoDup_fmap_2_strong; [|apply NoDup_seq].
  intros i j [Hi _]%elem_of_seq [Hj _]%elem_of_seq Heq.
  destruct (Nat.lt_trichotomy i j) as [Hlt|[->|Hgt]]; [|done|].
  - pose proof (Fib_lt i j ltac:(lia)). lia.
  - pose proof (Fib_lt j i ltac:(lia)). lia.
Qed.

Lemma neighbour_prefix_elem (n k : nat) (v : Z) :
  (1 <= k)%nat -> (k < n)%nat ->
  v ∈ (list_to_set (slice_to (table n) (Z.of_nat (first_position k) + 1))
        : gset Z)
  <-> v ∈ reverse (drop 1 (table (S k))).
Proof.
  intros Hk Hn. rewrite elem_of_list_to_set, neighbour_divisors_elem.
  unfold slice_to.
  assert (first_position k <= k)%nat by (destruct k as [|[|k]]; simpl; lia).
  replace (Z.to_nat (Z.of_nat (first_position k) + 1))
    with (S (first_position k)) by lia.
  rewrite table_take by lia. rewrite table_elem. split.
  - intros (j & Hj & ->). destruct j as [|j].
    + exists 1%nat. split; [lia|done].
    + exists (S j). split; [|done]. destruct k as [|[|k]]; simpl in *; lia.
  - intros (j & Hj & ->). exists (first_position j).
    rewrite Fib_first_position. split; [|done].
    destruct j as [|[|j]], k as [|[|k]]; simpl in *; lia.
Qed.

Lemma all_but_last_snoc {A} (l : list A) (x : A) : all_but_last (l ++ [x]) = l.
Proof.
  unfold all_but_last. rewrite length_app. simpl.
  replace (length l + 1 - 1)%nat with (length l) by lia.
  apply take_app_length.
Qed.

Lemma gcd_simulation_on_trace (self : AnalogComputingSimulator)
    (x y : Z) ops pth (extra : list Z) (n k : nat) :
  well_built self -> fib (fm self) = table n ->
  x ∈ fib_set (fm self) -> y ∈ fib_set (fm self) ->
  Z.min x y = Fib k -> (1 <= k < n)%nat ->
  euclid_trace x y ops pth 1 ->
  pth.*2 = extra ++ reverse (drop 1 (table (S k))) ->
  (forall v, v ∈ extra -> Fib k < v) ->
  exists r self',
    simulate_gcd_computation self x y = Ok (r, self')
    /\ gcd_value r = 1
    /\ final_active_cells r = []
    /\ deactivated <$> cells_deactivated r = reverse (drop 1 (table (S k)))
    /\ steps r = Z.of_nat k.
Proof.
  intros Hwb Hfib Hx Hy Hmin Hk Htr Hdiv Hextra.
  destruct (simulate_gcd_computation_members self x y Hwb Hx Hy)
    as (r & self' & _ & Hrun & _).
  exists r, self'. split; [done|].
  apply simulate_gcd_computation_returns in Hrun
    as (_ & _ & Hg & Hsteps & -> & idx & active & Hidx & Hfinal & Hloop).
  rewrite (compute_gcd_of_trace _ _ _ _ _ _ Htr) in Hg, Hloop.
  cbn [fst snd gcd path] in Hg, Hloop. rewrite all_but_last_snoc in Hloop.
  rewrite Hmin, Hfib, table_index in Hidx by lia. injection Hidx as <-.
  rewrite Hfib in Hloop.
  destruct (all_deactivated _ _ _ extra (reverse (drop 1 (table (S k))))
              _ _ Hloop) as [-> Hremoved].
  - by rewrite enumerate_divisors.
  - intros v Hv Hin. apply (neighbour_prefix_elem n k) in Hin; [|lia..].
    apply neighbour_divisors_elem in Hin as (j & Hj & ->).
    pose proof (Hextra _ Hv). pose proof (Fib_mono j k ltac:(lia)). lia.
  - apply neighbour_divisors_NoDup.
  - intros v. apply neighbour_prefix_elem; lia.
  - split; [done|]. split; [by rewrite Hfinal, elements_empty|].
    split; [done|]. rewrite Hsteps, <- (length_fmap deactivated), Hremoved.
    rewrite length_reverse, length_drop, table_length. lia.
Qed.

(** The duality the simulator is built on: for two neighbours [a = fib[k]]
    and [b = fib[k + 1]] of the table ([k >= 1]), in either order, the GCD
    simulation returns 1 and deactivates every cell the multiplication
    activates, from the largest down: the deactivated values are
    [fib[k], ..., fib[1]], there are [k] steps and no active cell is left. *)
Theorem neighbours_deactivate_all (max_fib : Z)
    (self : AnalogComputingSimulator) (k : nat) (a b : Z) :
  AnalogComputingSimulator_init max_fib = Ok self ->
  (1 <= k)%nat ->
  fib (fm self) !! k = Some a -> fib (fm self) !! S k = Some b ->
  forall x y, (x = a /\ y = b) \/ (x = b /\ y = a) ->
  exists r self',
    simulate_gcd_computation self x y = Ok (r, self')
    /\ gcd_value r = 1
    /\ final_active_cells r = []
    /\ deactivated <$> cells_deactivated r
       = reverse (drop 1 (take (S k) (fib (fm self))))
    /\ steps r = Z.of_nat k.
Proof.
  intros Hwb%init_well_built Hk Ha Hb x y Horder.
  destruct Hwb as [[max_n Hinit] Hcells].
  pose proof (FractalMultiplier_init_table _ _ Hinit)
    as (n & _ & Hfib & Hset & _).
  rewrite Hfib in Ha, Hb |- *.
  apply table_lookup_inv in Ha as [_ ->].
  apply table_lookup_inv in Hb as [Hn ->].
  rewrite table_take by lia.
  assert (Fib k ∈ fib_set (fm self) /\ Fib (S k) ∈ fib_set (fm self))
    as [Hin Hin'].
  { rewrite Hset, !elem_of_list_to_set, !table_elem.
    split; eexists; (split; [|done]); lia. }
  pose proof (Fib_lt_S k Hk) as Hlt. pose proof (Fib_pos k) as Hpos.
  destruct (Fib_neighbours_divisors k Hk) as (ops & pth & Htr & Hdiv).
  destruct Horder as [[-> ->]|[-> ->]].
  - assert (euclid_trace (Fib (S k)) (Fib k mod Fib (S k)) ops pth 1) as Htr'
        by (by rewrite Z.mod_small by lia).
    pose proof (trace_divide (Fib k) (Fib (S k)) ops pth 1 ltac:(lia) Htr')
      as Hswap.
    rewrite Z.div_small, Z.mod_small in Hswap by lia.
    apply (gcd_simulation_on_trace self _ _ _ _ [Fib (S k)] n k
             (conj (ex_intro _ max_n Hinit) Hcells) Hfib Hin Hin'
             ltac:(lia) ltac:(lia) Hswap).
    + by rewrite fmap_cons, Hdiv.
    + by intros v ->%list_elem_of_singleton.
  - apply (gcd_simulation_on_trace self _ _ _ _ [] n k
             (conj (ex_intro _ max_n Hinit) Hcells) Hfib Hin' Hin
             ltac:(lia) ltac:(lia) Htr); [done|].
    by intros v ?%elem_of_nil.
Qed.

Lemma neighbours_deactivate_all_witness :
  exists self,
    AnalogComputingSimulator_init 23 = Ok self
    /\ (1 <= 8)%nat
    /\ fib (fm self) !! 8%nat = Some 34 /\ fib (fm self) !! 9%nat = Some 55
    /\ ((34 = 34 /\ 55 = 55) \/ (34 = 55 /\ 55 = 34))
    /\ exists r self',
         simulate_gcd_computation self 34 55 = Ok (r, self')
         /\ gcd_value r = 1
         /\ final_active_cells r = []
         /\ deactivated <$> cells_deactivated r
            = reverse (drop 1 (take 9 (fib (fm self))))
         /\ steps r = Z.of_nat 8.
Proof.
  eexists. split; [vm_compute; reflexivity|].
  split; [lia|]. split; [reflexivity|]. split; [reflexivity|].
  split; [by left|].
  apply (neighbours_deactivate_all 23 _ 8 34 55);
    [vm_compute; reflexivity|lia|reflexivity|reflexivity|by left].
Defined.

(** The simulator can be used again after a GCD simulation: the tracer
    state that the run leaves behind is overwritten by the next one, so on
    the returned simulator both simulations give exactly what they give on
    the original. *)
Theorem simulator_reusable (np : Np.lib)
    (self self' : AnalogComputingSimulator) (a b : Z) (r : GcdResult) :
  simulate_gcd_computation self a b = Ok (r, self') ->
  forall c d,
    simulate_gcd_computation self' c d = simulate_gcd_computation self c d
    /\ forall voltage rs,
         simulate_multiplication np self' c d voltage rs
         = simulate_multiplication np self c d voltage rs.
Proof.
  intros (_ & _ & _ & _ & -> & _)%simulate_gcd_computation_returns c d.
  split; [|done].
  unfold simulate_gcd_computation. cbn [fm gcd cells base_conductance noise_std].
  destruct (decide _); [done|]. destruct (index _ _); [|done].
  reflexivity.
Qed.

Lemma simulator_reusable_witness :
  exists self,
    AnalogComputingSimulator_init 23 = Ok self
    /\ exists r self',
         simulate_gcd_computation self 34 55 = Ok (r, self')
         /\ forall c d,
              simulate_gcd_computation self' c d
              = simulate_gcd_computation self c d
              /\ forall voltage rs,
                   simulate_multiplication
                     (Np.mkLib (fun x => x) (fun _ => 0%float))
                     self' c d voltage rs
                   = simulate_multiplication
                       (Np.mkLib (fun x => x) (fun _ => 0%float))
                       self c d voltage rs.
Proof.
  eexists. split; [vm_compute; reflexivity|].
  eexists _, _. split; [vm_compute; reflexivity|].
  eapply (simulator_reusable _ _ _ 34 55). vm_compute. reflexivity.
Defined.


